(** * resultjs: the Result algebra and its asynchronous bridge

    A shallow embedding of [src/functions.ts], [src/impls/ok.ts],
    [src/impls/error.ts], [src/impls/promise.ts] and the helpers
    [isThenable] / [isIterable], together with the part of the host
    runtime they rely on (promise cells, resolving functions, reaction
    jobs and the job queue). *)

From Stdlib Require Import ZArith.
From stdpp Require Import base list strings.

Open Scope list_scope.

Set Warnings "-register-all".

(** ** JavaScript values *)

(** Identifier of a promise cell in the heap. *)
Definition PId := nat.

(** Which of the two callbacks given to a [then] method gets called. *)
Inductive Channel : Type := OnFulfilled | OnRejected.

(** The values that flow through the library.  A [Result] instance is an
    [OkResult] or an [ErrorResult] object.  Promises are references into
    the heap; [VResultPromise] is an instance of [ResultPromise],
    [VNativePromise] an instance of the host's [Promise] only.
    [VObject] stands for every other object: [inheritsObject] tells
    whether [Object.prototype] is on its prototype chain (what
    [instanceof Object] tests; [Object.create(null)] gives [false]);
    [thenMethod = Some calls] says the object has a function under
    [then] which, called with two callbacks, invokes them as listed;
    [iterMethod = Some xs] says it has a function under
    [Symbol.iterator] whose iterator produces [xs].
    Values are finite trees: an object that is reachable from itself
    (one whose [then] passes its own receiver to a callback, say) has no
    counterpart here, and no statement below rests on there being none:
    what a [then] passes is always an arbitrary value. *)
Inductive Val : Type :=
| VUndef
| VNum (n : Z)
| VStr (s : string)
| VArray (elems : list Val)
| VResult (r : Result)
| VNativePromise (p : PId)
| VResultPromise (p : PId)
| VObject (inheritsObject : bool)
          (thenMethod : option (list (Channel * Val)))
          (iterMethod : option (list Val))
with Result : Type :=
| ROk (value : Val)
| RError (error : Val).

(** [result.ok] *)
Definition ok_flag (r : Result) : bool :=
  match r with ROk _ => true | RError _ => false end.

(** ** Synchronous effects: handlers, the call log and thrown values *)

Inductive Outcome (A : Type) : Type :=
| Return (a : A)
| Throw (e : Val).
Arguments Return {A} a.
Arguments Throw {A} e.

(** Memory that user code can read and write. *)
Definition Store := list Val.

(** A user function: it has an identity, and a body that may change the
    store and either returns or throws.  What it returns may be any
    value, a reference to a promise of the heap included. *)
Record Handler : Type := mkHandler {
  hid : nat;
  hbody : Val -> Store -> Outcome Val * Store
}.

(** The environment of synchronous code: the store and the log of every
    handler invocation (which handler, on which argument). *)
Record Env : Type := mkEnv {
  store : Store;
  calls : list (nat * Val)
}.

Definition M (A : Type) : Type := Env -> Outcome A * Env.

Definition ret {A} (a : A) : M A := fun s => (Return a, s).
Definition throw {A} (e : Val) : M A := fun s => (Throw e, s).
Definition bind {A B} (c : M A) (k : A -> M B) : M B :=
  fun s => match c s with
           | (Return a, s') => k a s'
           | (Throw e, s') => (Throw e, s')
           end.
(** [try { c } catch (e) { h e }] *)
Definition try_catch {A} (c : M A) (h : Val -> M A) : M A :=
  fun s => match c s with
           | (Return a, s') => (Return a, s')
           | (Throw e, s') => h e s'
           end.

Notation "'let!' x ':=' c 'in' k" := (bind c (fun x => k))
  (at level 10, x name, c at level 100, k at level 200).

(** [fn(arg)] for a user function. *)
Definition invoke (fn : Handler) (arg : Val) : M Val :=
  fun s =>
    let '(o, st) := hbody fn arg (store s) in
    (o, {| store := st; calls := calls s ++ [(hid fn, arg)] |}).

(** ** Helpers ([src/internal/helpers]) *)

(** [value instanceof Object] *)
Definition instanceof_Object (v : Val) : bool :=
  match v with
  | VUndef | VNum _ | VStr _ => false
  | VArray _ | VResult _ | VNativePromise _ | VResultPromise _ => true
  | VObject inh _ _ => inh
  end.

(** [value.then instanceof Function] *)
Definition then_is_Function (v : Val) : bool :=
  match v with
  | VNativePromise _ | VResultPromise _ => true
  | VObject _ (Some _) _ => true
  | _ => false
  end.

(** [value[Symbol.iterator] instanceof Function] *)
Definition iterator_is_Function (v : Val) : bool :=
  match v with
  | VStr _ | VArray _ | VResult _ => true
  | VObject _ _ (Some _) => true
  | _ => false
  end.

Definition isThenable (v : Val) : bool :=
  instanceof_Object v && then_is_Function v.

Definition isIterable (v : Val) : bool :=
  instanceof_Object v && iterator_is_Function v.

(** ** Iterators and generators *)

Inductive Iterator : Type :=
| ListIterator (elems : list Val) (index : nat)
| SingleIterator (value : Val) (done : bool)
| DoneIterator.

(** [it.next()]: [None] stands for [{ done: true }]. *)
Definition next (it : Iterator) : option Val * Iterator :=
  match it with
  | ListIterator l i =>
      match l !! i with
      | Some x => (Some x, ListIterator l (S i))
      | None => (None, it)
      end
  | SingleIterator v done =>
      if done then (None, it) else (Some v, SingleIterator v true)
  | DoneIterator => (None, it)
  end.

(** Pulling an iterator until it is done, at most [fuel] times; [None]
    when the fuel did not suffice. *)
Fixpoint drain (fuel : nat) (it : Iterator) : option (list Val) :=
  match fuel with
  | O => None
  | S n =>
      match next it with
      | (None, _) => Some []
      | (Some x, it') => option_map (cons x) (drain n it')
      end
  end.

(** The elements an iterator still has to produce. *)
Definition remaining (it : Iterator) : list Val :=
  match it with
  | ListIterator l i => drop i l
  | SingleIterator v done => if done then [] else [v]
  | DoneIterator => []
  end.

(** What a generator object produces when run to completion. *)
Inductive GenReturn : Type :=
| RetUndefined
| RetIterator (it : Iterator).

Record Generator : Type := mkGenerator {
  yielded : list Val;
  returned : GenReturn
}.

(** [value[Symbol.iterator]()] for a value, and [OkResult] /
    [ErrorResult][[Symbol.iterator]()] for a Result. *)
Fixpoint symbol_iterator (v : Val) : Iterator :=
  match v with
  | VArray l => ListIterator l 0
  | VStr s => ListIterator (map (fun c => VStr (String c EmptyString)) (String.list_ascii_of_string s)) 0
  | VResult r => Result_iterator r
  | VObject _ _ (Some l) => ListIterator l 0
  | _ => DoneIterator
  end
with Result_iterator (r : Result) : Iterator :=
  match r with
  | ROk value =>
      (* if value is an iterable, return its iterator *)
      if isIterable value then symbol_iterator value
      (* else, return value as a single-element iterator *)
      else SingleIterator value false
  | RError _ => DoneIterator
  end.

(** [for (const value of xs) fn(value)] *)
Fixpoint for_of (xs : list Val) (fn : Handler) : M unit :=
  match xs with
  | [] => ret tt
  | x :: rest => let! _ := invoke fn x in for_of rest fn
  end.

(** ** Free functions ([src/functions.ts]) *)

Module Functions.

(** [ok(value?)]: a missing argument is [undefined]. *)
Definition ok (value : option Val) : Result :=
  ROk (default VUndef value).

Definition error (err : Val) : Result := RError err.

Definition from (fn : Handler) (arg : Val) : M Result :=
  try_catch (let! result := invoke fn arg in ret (ROk result))
            (fun err => ret (RError err)).

(** [is] (a reserved word here, hence [is_]). *)
Definition is_ (result : Val) : bool :=
  match result with VResult _ => true | _ => false end.

Definition isOk (result : Result) : bool := ok_flag result.

Definition isError (result : Result) : bool := negb (ok_flag result).

(** The [for ... of] loop of [and]: the first element whose flag is
    false, if any. *)
Fixpoint and_loop (results : list Result) : option Result :=
  match results with
  | [] => None
  | result :: rest => if negb (ok_flag result) then Some result else and_loop rest
  end.

Definition and (results : list Result) : Result :=
  if Nat.eqb (length results) 0 then ok None
  else match and_loop results with
       | Some result => result
       | None => default (ROk VUndef) (results !! (length results - 1)%nat)
       end.

Fixpoint or_loop (results : list Result) : option Result :=
  match results with
  | [] => None
  | result :: rest => if ok_flag result then Some result else or_loop rest
  end.

Definition or (results : list Result) : Result :=
  if Nat.eqb (length results) 0 then ok None
  else match or_loop results with
       | Some result => result
       | None => default (ROk VUndef) (results !! (length results - 1)%nat)
       end.

(** [flatten(result)]: the static type makes [result.value] a Result;
    the function itself returns whatever the field holds. *)
Definition flatten (result : Result) : Val :=
  match result with
  | ROk value => value
  | RError _ => VResult result
  end.

End Functions.

(** ** The Success variant ([src/impls/ok.ts]); [value] is [this.value] *)

Module OkResult.

Definition isOkAnd (value : Val) (fn : Handler) : M Val := invoke fn value.

Definition map (value : Val) (fn : Handler) : M Result :=
  let! x := invoke fn value in ret (ROk x).

Definition mapOr (value : Val) (fn : Handler) : M Val := invoke fn value.

Definition mapOrElse (value : Val) (fn : Handler) : M Val := invoke fn value.

Definition mapErr (value : Val) : M Result := ret (ROk value).

Definition inspect (value : Val) (fn : Handler) : M Result :=
  let! _ := invoke fn value in ret (ROk value).

Definition inspectError (value : Val) : M Result := ret (ROk value).

Definition values (value : Val) : Generator :=
  if isIterable value
  then {| yielded := []; returned := RetIterator (symbol_iterator value) |}
  else {| yielded := [value]; returned := RetUndefined |}.

Definition forEach (value : Val) (fn : Handler) : M unit :=
  if isIterable value
  then for_of (remaining (symbol_iterator value)) fn
  else let! _ := invoke fn value in ret tt.

Definition unwrap (value : Val) : M Val := ret value.

Definition unwrapError (value : Val) (fn : option Handler) : M Val :=
  match fn with
  | Some f => let! x := invoke f value in throw x
  | None => throw value
  end.

Definition and (result : Result) : M Result := ret result.

Definition andThen (value : Val) (fn : Handler) : M Val := invoke fn value.

Definition or (value : Val) : M Result := ret (ROk value).

Definition orElse (value : Val) : M Result := ret (ROk value).

Definition clone (value : Val) : Result := ROk value.

(** [Result.is(this.value) ? this.value : this] *)
Definition flatten (value : Val) : Val :=
  if Functions.is_ value then value else VResult (ROk value).

Definition expect (value : Val) : M Val := ret value.

Definition unwrapOr (value : Val) : M Val := ret value.

Definition unwrapOrElse (value : Val) : M Val := ret value.

End OkResult.

(** ** The Failure variant ([src/impls/error.ts]); [error] is [this.error] *)

Module ErrorResult.

Definition isErrorAnd (error : Val) (fn : Handler) : M Val := invoke fn error.

Definition map (error : Val) : M Result := ret (RError error).

Definition mapOr (defaultValue : Val) : M Val := ret defaultValue.

Definition mapOrElse (error : Val) (defaultValue : Handler) : M Val :=
  invoke defaultValue error.

Definition mapErr (error : Val) (fn : Handler) : M Result :=
  let! x := invoke fn error in ret (RError x).

Definition inspect (error : Val) : M Result := ret (RError error).

Definition inspectError (error : Val) (fn : Handler) : M Result :=
  let! _ := invoke fn error in ret (RError error).

Definition values : Generator :=
  {| yielded := []; returned := RetUndefined |}.

Definition unwrap (error : Val) : M Val := throw error.

Definition unwrapError (error : Val) : M Val := ret error.

Definition and (error : Val) : M Result := ret (RError error).

Definition andThen (error : Val) : M Result := ret (RError error).

Definition or (result : Result) : M Result := ret result.

Definition orElse (error : Val) (fn : Handler) : M Val := invoke fn error.

Definition clone (error : Val) : Result := RError error.

Definition flatten (error : Val) : Val := VResult (RError error).

Definition forEach : M unit := ret tt.

Definition unwrapOr (defaultValue : Val) : M Val := ret defaultValue.

Definition unwrapOrElse (error : Val) (defaultValue : Handler) : M Val :=
  invoke defaultValue error.

End ErrorResult.

(** ** Method calls on a [Result]: dispatch on the receiver's class.
    Arguments a method does not declare are dropped by the call. *)

Definition Result_map (this : Result) (fn : Handler) : M Result :=
  match this with
  | ROk value => OkResult.map value fn
  | RError error => ErrorResult.map error
  end.

Definition Result_mapErr (this : Result) (fn : Handler) : M Result :=
  match this with
  | ROk value => OkResult.mapErr value
  | RError error => ErrorResult.mapErr error fn
  end.

Definition Result_and (this : Result) (result : Result) : M Result :=
  match this with
  | ROk _ => OkResult.and result
  | RError error => ErrorResult.and error
  end.

Definition Result_andThen (this : Result) (fn : Handler) : M Val :=
  match this with
  | ROk value => OkResult.andThen value fn
  | RError error => let! r := ErrorResult.andThen error in ret (VResult r)
  end.

Definition Result_or (this : Result) (result : Result) : M Result :=
  match this with
  | ROk value => OkResult.or value
  | RError _ => ErrorResult.or result
  end.

Definition Result_orElse (this : Result) (fn : Handler) : M Val :=
  match this with
  | ROk value => let! r := OkResult.orElse value in ret (VResult r)
  | RError error => ErrorResult.orElse error fn
  end.

Definition Result_flatten (this : Result) : Val :=
  match this with
  | ROk value => OkResult.flatten value
  | RError error => ErrorResult.flatten error
  end.

Definition Result_values (this : Result) : Generator :=
  match this with
  | ROk value => OkResult.values value
  | RError _ => ErrorResult.values
  end.

Definition Result_unwrap (this : Result) : M Val :=
  match this with
  | ROk value => OkResult.unwrap value
  | RError error => ErrorResult.unwrap error
  end.


Definition Result_unwrapOr (this : Result) (defaultValue : Val) : M Val :=
  match this with
  | ROk value => OkResult.unwrapOr value
  | RError _ => ErrorResult.unwrapOr defaultValue
  end.

Definition Result_unwrapOrElse (this : Result) (defaultValue : Handler) : M Val :=
  match this with
  | ROk value => OkResult.unwrapOrElse value
  | RError error => ErrorResult.unwrapOrElse error defaultValue
  end.

Definition Result_mapOr (this : Result) (defaultValue : Val) (fn : Handler) : M Val :=
  match this with
  | ROk value => OkResult.mapOr value fn
  | RError _ => ErrorResult.mapOr defaultValue
  end.

Definition Result_mapOrElse (this : Result) (defaultValue fn : Handler) : M Val :=
  match this with
  | ROk value => OkResult.mapOrElse value fn
  | RError error => ErrorResult.mapOrElse error defaultValue
  end.

Definition Result_inspect (this : Result) (fn : Handler) : M Result :=
  match this with
  | ROk value => OkResult.inspect value fn
  | RError error => ErrorResult.inspect error
  end.

Definition Result_inspectError (this : Result) (fn : Handler) : M Result :=
  match this with
  | ROk value => OkResult.inspectError value
  | RError error => ErrorResult.inspectError error fn
  end.

Definition Result_forEach (this : Result) (fn : Handler) : M unit :=
  match this with
  | ROk value => OkResult.forEach value fn
  | RError _ => ErrorResult.forEach
  end.

Definition Result_clone (this : Result) : Result :=
  match this with
  | ROk value => OkResult.clone value
  | RError error => ErrorResult.clone error
  end.

(** ** The host's promises

    A promise cell is pending (with the reactions registered on it),
    fulfilled or rejected.  Its resolving functions come in pairs that
    share an "already resolved" flag; a new pair is made each time the
    promise is resolved with a thenable, so a pair is identified by a
    generation number and is live while the cell is pending at that
    generation. *)

Inductive Settler : Type :=
| NativeResolve (p : PId) (g : nat)
| NativeReject (p : PId) (g : nat)
(** [value => resolve(new Result.Ok(value))] of the constructor *)
| SettleSuccess (p : PId)
(** [error => resolve(new Result.Error(error))] of the constructor *)
| SettleFailure (p : PId).

(** The third capability the constructor hands out is the host's own
    [reject]. *)
Definition catcher_of (p : PId) : Settler := NativeReject p 0.

(** The callbacks the library hands to a [then] method it did not
    define. *)
Inductive Cont : Type :=
| KSettle (s : Settler)
(** [result => result.ok ? resolver(result.value) : rejecter(result.error)] *)
| KRoute (resolver rejecter : Settler).

(** Every function that can sit in a promise reaction: the above, user
    functions, and the closures of [src/impls/promise.ts], each with the
    variables it captures ([d] is the promise whose executor created the
    closure). *)
Inductive Callback : Type :=
| CbCont (k : Cont)
| CbUser (fn : Handler)
| CbThenResult (onresult : option Callback) (d : PId)
| CbThenThrow (onthrow : Callback) (d : PId)
| CbCatch (onthrow : Handler) (d : PId)
| CbMap (fn : Handler) (d : PId)
| CbMapOrElse (defaultValue fn : Handler) (d : PId)
| CbAndThen (fn : Handler) (d : PId)
| CbOrElse (fn : Handler) (d : PId).

Record Reaction : Type := mkReaction {
  onFulfilled : option Callback;
  onRejected : option Callback;
  capResolve : Settler;
  capReject : Settler
}.

Inductive PState : Type :=
| Pending (reactions : list Reaction)
| Fulfilled (v : Val)
| Rejected (reason : Val).

Record Cell : Type := mkCell {
  gen : nat;
  pstate : PState
}.

Inductive Job : Type :=
| ReactionJob (handler : option Callback) (ch : Channel)
              (resolve reject : Settler) (arg : Val)
| ThenableJob (p : PId) (g : nat) (thenable : Val).

Record Machine : Type := mkMachine {
  heap : list Cell;
  queue : list Job;
  env : Env
}.

Definition set_heap (h : list Cell) (m : Machine) : Machine :=
  {| heap := h; queue := queue m; env := env m |}.
Definition enqueue (js : list Job) (m : Machine) : Machine :=
  {| heap := heap m; queue := queue m ++ js; env := env m |}.
Definition set_env (e : Env) (m : Machine) : Machine :=
  {| heap := heap m; queue := queue m; env := e |}.

(** Code that runs inside the machine. *)
Definition Act (B : Type) : Type := Machine -> Outcome B * Machine.

(** Synchronous code run inside the machine. *)
Definition lift {B} (c : M B) : Act B :=
  fun m => let '(o, e) := c (env m) in (o, set_env e m).

(** A fresh pending cell; its identifier is the next free index. *)
Definition alloc (m : Machine) : PId * Machine :=
  (length (heap m), set_heap (heap m ++ [mkCell 0 (Pending [])]) m).

Definition fulfill_jobs (rs : list Reaction) (v : Val) : list Job :=
  map (fun r => ReactionJob (onFulfilled r) OnFulfilled (capResolve r) (capReject r) v) rs.
Definition reject_jobs (rs : list Reaction) (v : Val) : list Job :=
  map (fun r => ReactionJob (onRejected r) OnRejected (capResolve r) (capReject r) v) rs.

(** The host's test for a thenable resolution: an object whose [then]
    is callable. *)
Definition host_thenable (v : Val) : bool := then_is_Function v.

Definition TypeError : Val := VStr "TypeError".

(** [x] is the promise [p] itself. *)
Definition same_promise (x : Val) (p : PId) : bool :=
  match x with
  | VNativePromise q | VResultPromise q => Nat.eqb q p
  | _ => false
  end.

(** The host's [resolve] function of generation [g] for promise [p]:
    nothing when the pair has been used; a promise resolved with itself
    is rejected; a thenable resolution is followed in a job of its own,
    with a new pair of resolving functions; anything else fulfills. *)
Definition native_resolve (p : PId) (g : nat) (x : Val) (m : Machine) : Machine :=
  match heap m !! p with
  | Some (mkCell g' (Pending rs)) =>
      if Nat.eqb g g' then
        if same_promise x p
        then enqueue (reject_jobs rs TypeError)
                     (set_heap (<[p := mkCell g (Rejected TypeError)]> (heap m)) m)
        else if host_thenable x
        then enqueue [ThenableJob p (S g) x]
                     (set_heap (<[p := mkCell (S g) (Pending rs)]> (heap m)) m)
        else enqueue (fulfill_jobs rs x)
                     (set_heap (<[p := mkCell g (Fulfilled x)]> (heap m)) m)
      else m
  | _ => m
  end.

(** The host's [reject] function of generation [g] for promise [p]. *)
Definition native_reject (p : PId) (g : nat) (r : Val) (m : Machine) : Machine :=
  match heap m !! p with
  | Some (mkCell g' (Pending rs)) =>
      if Nat.eqb g g'
      then enqueue (reject_jobs rs r)
                   (set_heap (<[p := mkCell g (Rejected r)]> (heap m)) m)
      else m
  | _ => m
  end.

Definition settle (s : Settler) (x : Val) (m : Machine) : Machine :=
  match s with
  | NativeResolve p g => native_resolve p g x m
  | NativeReject p g => native_reject p g x m
  | SettleSuccess p => native_resolve p 0 (VResult (ROk x)) m
  | SettleFailure p => native_resolve p 0 (VResult (RError x)) m
  end.

(** [result.ok ? onOk(result.value) : onError(result.error)] on an
    arbitrary value: reading a property of [undefined] throws, a
    missing property reads as [undefined]. *)
Definition branch_on_ok {B} (result : Val) (onOk onError : Val -> B) (onTypeError : B) : B :=
  match result with
  | VResult (ROk value) => onOk value
  | VResult (RError error) => onError error
  | VUndef => onTypeError
  | _ => onError VUndef
  end.

Definition apply_cont (k : Cont) (arg : Val) : Act Val :=
  fun m =>
    match k with
    | KSettle s => (Return VUndef, settle s arg m)
    | KRoute resolver rejecter =>
        branch_on_ok arg
          (fun value => (Return VUndef, settle resolver value m))
          (fun error => (Return VUndef, settle rejecter error m))
          (Throw TypeError, m)
    end.

(** Which constructor [Promise.prototype.then] uses for the promise it
    returns: the receiver's own class. *)
Inductive Species : Type := NativeSpecies | ResultSpecies.

Definition capability (sp : Species) (d : PId) : Settler * Settler :=
  match sp with
  | NativeSpecies => (NativeResolve d 0, NativeReject d 0)
  | ResultSpecies => (SettleSuccess d, SettleFailure d)
  end.

(** [Promise.prototype.then] on cell [p]: the reaction is stored when
    [p] is pending and scheduled as a job when [p] is already settled
    (a reference to no cell of the heap never settles).  Returns the
    promise it created. *)
Definition native_then (sp : Species) (p : PId)
    (onF onR : option Callback) (m : Machine) : PId * Machine :=
  let '(d, m1) := alloc m in
  let '(res, rej) := capability sp d in
  match heap m1 !! p with
  | Some (mkCell g (Pending rs)) =>
      (d, set_heap (<[p := mkCell g (Pending (rs ++ [mkReaction onF onR res rej]))]> (heap m1)) m1)
  | Some (mkCell _ (Fulfilled v)) =>
      (d, enqueue [ReactionJob onF OnFulfilled res rej v] m1)
  | Some (mkCell _ (Rejected r)) =>
      (d, enqueue [ReactionJob onR OnRejected res rej r] m1)
  | None => (d, m1)
  end.

(** ** The asynchronous Result ([src/impls/promise.ts]) *)

(** [new Result.Promise(executor)]: the executor runs at once with the
    three capabilities of the new promise [d]; the host rejects [d] if
    the executor throws. *)
Definition new_ResultPromise (executor : PId -> Act Val) (m : Machine) : PId * Machine :=
  let '(d, m1) := alloc m in
  match executor d m1 with
  | (Return _, m2) => (d, m2)
  | (Throw e, m2) => (d, native_reject d 0 e m2)
  end.

Module ResultPromise.

Definition ok (value : option Val) (m : Machine) : PId * Machine :=
  new_ResultPromise
    (fun d m => (Return VUndef, settle (SettleSuccess d) (default VUndef value) m)) m.

Definition error (error : Val) (m : Machine) : PId * Machine :=
  new_ResultPromise
    (fun d m => (Return VUndef, settle (SettleFailure d) error m)) m.

(** [then(onresult, onthrow)] on the ResultPromise [this]. *)
Definition then_ (this : PId) (onresult onthrow : option Callback)
    (m : Machine) : PId * Machine :=
  new_ResultPromise
    (fun d m =>
       let '(_, m') :=
         native_then ResultSpecies this
           (Some (CbThenResult onresult d))
           (Some (match onthrow with
                  | Some h => CbThenThrow h d
                  | None => CbCont (KSettle (catcher_of d))
                  end)) m in
       (Return VUndef, m')) m.

End ResultPromise.

(** [v.then(onF, onR)] for an arbitrary receiver. *)
Fixpoint then_calls (cs : list (Channel * Val)) (onF onR : Cont) : Act Val :=
  fun m =>
    match cs with
    | [] => (Return VUndef, m)
    | (ch, x) :: rest =>
        match apply_cont (match ch with OnFulfilled => onF | OnRejected => onR end) x m with
        | (Return _, m') => then_calls rest onF onR m'
        | (Throw e, m') => (Throw e, m')
        end
    end.

Definition js_then (v : Val) (onF onR : Cont) : Act Val :=
  fun m =>
    match v with
    | VResultPromise p =>
        let '(d, m') := ResultPromise.then_ p (Some (CbCont onF)) (Some (CbCont onR)) m in
        (Return (VResultPromise d), m')
    | VNativePromise p =>
        let '(d, m') := native_then NativeSpecies p (Some (CbCont onF)) (Some (CbCont onR)) m in
        (Return (VNativePromise d), m')
    | VObject _ (Some cs) _ => then_calls cs onF onR m
    | _ => (Throw TypeError, m)
    end.

(** [value instanceof Result.Promise] *)
Definition instanceof_ResultPromise (v : Val) : bool :=
  match v with VResultPromise _ => true | _ => false end.

Definition void (c : Act Val) : Act Val :=
  fun m => match c m with
           | (Return _, m') => (Return VUndef, m')
           | (Throw e, m') => (Throw e, m')
           end.

Definition handleValueResolution (value : Val)
    (resolver rejecter catcher : Settler) : Act Val :=
  if isThenable value then
    if instanceof_ResultPromise value
    then void (js_then value (KRoute resolver rejecter) (KSettle catcher))
    else void (js_then value (KSettle resolver) (KSettle catcher))
  else if Functions.is_ value then
    apply_cont (KRoute resolver rejecter) value
  else
    apply_cont (KSettle resolver) value.

(** [let value; try { value = c } catch (e) { return catcher(e) }
    handleValueResolution(value, resolve, reject, catcher)], the body
    shared by the closures of [then] and [catch]; [d] is the promise
    whose capabilities the closure captured. *)
Definition guarded_resolution (c : Act Val) (d : PId) : Act Val :=
  fun m =>
    match c m with
    | (Throw e, m') => (Return VUndef, settle (catcher_of d) e m')
    | (Return value, m') =>
        handleValueResolution value (SettleSuccess d) (SettleFailure d) (catcher_of d) m'
    end.

(** [const value = c; handleValueResolution(value, resolve, reject,
    catcher)], the body shared by the closures of [map], [mapOrElse],
    [andThen] and [orElse]: no [try] around the call. *)
Definition unguarded_resolution (c : Act Val) (d : PId) : Act Val :=
  fun m =>
    match c m with
    | (Throw e, m') => (Throw e, m')
    | (Return value, m') =>
        handleValueResolution value (SettleSuccess d) (SettleFailure d) (catcher_of d) m'
    end.

(** Calling a function with one argument. *)
Fixpoint call (cb : Callback) (arg : Val) : Act Val :=
  match cb with
  | CbCont k => apply_cont k arg
  | CbUser fn => lift (invoke fn arg)
  | CbThenResult onresult d =>
      match onresult with
      | None => apply_cont (KRoute (SettleSuccess d) (SettleFailure d)) arg
      | Some h => guarded_resolution (call h arg) d
      end
  | CbThenThrow onthrow d => guarded_resolution (call onthrow arg) d
  | CbCatch onthrow d => guarded_resolution (lift (invoke onthrow arg)) d
  | CbMap fn d | CbAndThen fn d =>
      branch_on_ok arg
        (fun value => unguarded_resolution (lift (invoke fn value)) d)
        (fun error m => (Return VUndef, settle (SettleFailure d) error m))
        (fun m => (Throw TypeError, m))
  | CbMapOrElse defaultValue fn d =>
      branch_on_ok arg
        (fun value => unguarded_resolution (lift (invoke fn value)) d)
        (fun error => unguarded_resolution (lift (invoke defaultValue error)) d)
        (fun m => (Throw TypeError, m))
  | CbOrElse fn d =>
      branch_on_ok arg
        (fun value m => (Return VUndef, settle (SettleSuccess d) value m))
        (fun error => unguarded_resolution (lift (invoke fn error)) d)
        (fun m => (Throw TypeError, m))
  end.

Module AsyncResult.

(** [from(promise)] *)
Definition from (promise : Val) (m : Machine) : PId * Machine :=
  new_ResultPromise
    (fun d => void (js_then promise (KSettle (SettleSuccess d)) (KSettle (SettleFailure d)))) m.

(** [from(fn, arg)]: the function is called first; if it throws, so
    does [from]. *)
Definition from_fn (fn : Handler) (arg : Val) (m : Machine) : Outcome PId * Machine :=
  match lift (invoke fn arg) m with
  | (Throw e, m') => (Throw e, m')
  | (Return promise, m') => let '(d, m'') := from promise m' in (Return d, m'')
  end.

(** [catch(onthrow)]: the host's [catch] calls [this.then(undefined,
    f)], which is the overriding [then]. *)
Definition catch (this : PId) (onthrow : option Handler) (m : Machine) : PId * Machine :=
  match onthrow with
  | None => (this, m)
  | Some h =>
      new_ResultPromise
        (fun d m =>
           let '(_, m') := ResultPromise.then_ this None (Some (CbCatch h d)) m in
           (Return VUndef, m')) m
  end.

Definition via_then (this : PId) (closure : PId -> Callback) (m : Machine) : PId * Machine :=
  new_ResultPromise
    (fun d m =>
       let '(_, m') := ResultPromise.then_ this (Some (closure d)) None m in
       (Return VUndef, m')) m.

Definition map (this : PId) (fn : Handler) := via_then this (CbMap fn).

Definition mapOrElse (this : PId) (defaultValue fn : Handler) :=
  via_then this (CbMapOrElse defaultValue fn).

Definition andThen (this : PId) (fn : Handler) := via_then this (CbAndThen fn).

Definition orElse (this : PId) (fn : Handler) := via_then this (CbOrElse fn).

End AsyncResult.

(** The asynchronous bridge of the two variants ([src/impls/ok.ts],
    [src/impls/error.ts]).  The methods return a ResultPromise. *)
Module OkResultAsync.

Definition mapAsync (value : Val) (fn : Handler) (m : Machine) : Outcome Val * Machine :=
  match lift (invoke fn value) m with
  | (Throw e, m') => (Throw e, m')
  | (Return promise, m') =>
      if instanceof_ResultPromise promise then (Return promise, m')
      else
        let '(d, m'') :=
          new_ResultPromise
            (fun d => void (js_then promise (KSettle (SettleSuccess d)) (KSettle (catcher_of d)))) m' in
        (Return (VResultPromise d), m'')
  end.

Definition andThenAsync (value : Val) (fn : Handler) (m : Machine) : Outcome Val * Machine :=
  match lift (invoke fn value) m with
  | (Throw e, m') => (Throw e, m')
  | (Return promise, m') =>
      if instanceof_ResultPromise promise then (Return promise, m')
      else
        let '(d, m'') :=
          new_ResultPromise
            (fun d => void (js_then promise (KRoute (SettleSuccess d) (SettleFailure d))
                                    (KSettle (catcher_of d)))) m' in
        (Return (VResultPromise d), m'')
  end.

(** [mapOrElseAsync(_, fn)]: the same body as [mapAsync]. *)
Definition mapOrElseAsync (value : Val) (fn : Handler) (m : Machine) : Outcome Val * Machine :=
  mapAsync value fn m.

Definition orElseAsync (value : Val) (m : Machine) : PId * Machine :=
  new_ResultPromise (fun d m => (Return VUndef, settle (SettleSuccess d) value m)) m.

End OkResultAsync.

Module ErrorResultAsync.

Definition mapAsync (error : Val) (m : Machine) : PId * Machine :=
  ResultPromise.error error m.

Definition andThenAsync (error : Val) (m : Machine) : PId * Machine :=
  ResultPromise.error error m.

Definition mapOrElseAsync (error : Val) (defaultValue : Handler) (m : Machine)
    : Outcome Val * Machine :=
  OkResultAsync.mapAsync error defaultValue m.

Definition orElseAsync (error : Val) (fn : Handler) (m : Machine) : Outcome Val * Machine :=
  OkResultAsync.andThenAsync error fn m.

End ErrorResultAsync.

Definition Result_mapAsync (this : Result) (fn : Handler) (m : Machine) : Outcome Val * Machine :=
  match this with
  | ROk value => OkResultAsync.mapAsync value fn m
  | RError error =>
      let '(d, m') := ErrorResultAsync.mapAsync error m in (Return (VResultPromise d), m')
  end.

Definition Result_andThenAsync (this : Result) (fn : Handler) (m : Machine) : Outcome Val * Machine :=
  match this with
  | ROk value => OkResultAsync.andThenAsync value fn m
  | RError error =>
      let '(d, m') := ErrorResultAsync.andThenAsync error m in (Return (VResultPromise d), m')
  end.

Definition Result_mapOrElseAsync (this : Result) (defaultValue fn : Handler) (m : Machine)
    : Outcome Val * Machine :=
  match this with
  | ROk value => OkResultAsync.mapOrElseAsync value fn m
  | RError error => ErrorResultAsync.mapOrElseAsync error defaultValue m
  end.

Definition Result_orElseAsync (this : Result) (fn : Handler) (m : Machine) : Outcome Val * Machine :=
  match this with
  | ROk value =>
      let '(d, m') := OkResultAsync.orElseAsync value m in (Return (VResultPromise d), m')
  | RError error => ErrorResultAsync.orElseAsync error fn m
  end.

(** ** The job queue *)

Definition run_job (j : Job) : Machine -> Machine :=
  fun m =>
    match j with
    | ReactionJob None OnFulfilled resolve _ arg => settle resolve arg m
    | ReactionJob None OnRejected _ reject arg => settle reject arg m
    | ReactionJob (Some h) _ resolve reject arg =>
        match call h arg m with
        | (Return v, m') => settle resolve v m'
        | (Throw e, m') => settle reject e m'
        end
    | ThenableJob p g thenable =>
        match js_then thenable (KSettle (NativeResolve p g)) (KSettle (NativeReject p g)) m with
        | (Return _, m') => m'
        | (Throw e, m') => native_reject p g e m'
        end
    end.

Definition step (m : Machine) : option Machine :=
  match queue m with
  | [] => None
  | j :: q => Some (run_job j {| heap := heap m; queue := q; env := env m |})
  end.

(** Running at most [fuel] jobs. *)
Fixpoint run (fuel : nat) (m : Machine) : Machine :=
  match fuel with
  | O => m
  | S n => match step m with
           | None => m
           | Some m' => run n m'
           end
  end.

Definition quiescent (m : Machine) : Prop := queue m = [].

Definition state_of (p : PId) (m : Machine) : option PState :=
  pstate <$> heap m !! p.

Definition empty_env : Env := {| store := []; calls := [] |}.
Definition init : Machine := {| heap := []; queue := []; env := empty_env |}.

(** ** Vocabulary of the statements *)

Definition is_ok (r : Result) : Prop := ok_flag r = true.
Definition is_error (r : Result) : Prop := ok_flag r = false.

(** A cell as [alloc] makes it. *)
Definition fresh : Cell := mkCell 0 (Pending []).

(** The value-resolution algorithm applied with the three capabilities
    of the derived future [d], as every combinator applies it. *)
Definition resolution (v : Val) (d : PId) : Act Val :=
  handleValueResolution v (SettleSuccess d) (SettleFailure d) (catcher_of d).

(** The handler [fn], called on [arg] in machine [m], returns [v] and
    leaves machine [m']. *)
Definition returns (fn : Handler) (arg : Val) (m : Machine) (v : Val) (m' : Machine) : Prop :=
  lift (invoke fn arg) m = (Return v, m').


(** The last branch of the value-resolution algorithm,
    [resolver(value)]: the value is the payload of a Success, and
    nothing of it is called. *)
Definition plain_payload (v : Val) (d : PId) : Act Val :=
  apply_cont (KSettle (SettleSuccess d)) v.

(** What the algorithm does with a value it takes for a future:
    [void value.then(...)] with the capabilities of [d], through the
    Result of a ResultPromise and directly otherwise. *)
Definition spliced (v : Val) (d : PId) : Act Val :=
  void (js_then v
          (if instanceof_ResultPromise v
           then KRoute (SettleSuccess d) (SettleFailure d)
           else KSettle (SettleSuccess d))
          (KSettle (catcher_of d))).

(** A handler that returns [error("bad")] whatever it is given. *)
Definition fail_bad : Handler :=
  mkHandler 1 (fun _ st => (Return (VResult (RError (VStr "bad"))), st)).

(** Running the one job that waits in [m] leaves the promise [d] in
    state [st] and no job behind: [d] has reached its final state. *)
Definition settles_as (d : PId) (st : PState) (m : Machine) : Prop :=
  state_of d (run 1 m) = Some st /\ quiescent (run 1 m).

(** As [settles_as], and the log of handler calls is then [log]. *)
Definition settles_calling (d : PId) (st : PState) (log : list (nat * Val))
    (m : Machine) : Prop :=
  settles_as d st m /\ calls (env (run 1 m)) = log.

(** [d] has been settled, with outcome [st]. *)
Definition final (d : PId) (st : PState) (m : Machine) : Prop :=
  exists g, heap m !! d = Some (mkCell g st)
            /\ match st with Pending _ => False | _ => True end.

(** [d] is pending in [m]. *)
Definition pending_in (d : PId) (m : Machine) : Prop :=
  exists g rs, heap m !! d = Some (mkCell g (Pending rs)).

(** [p] is settled in [m]. *)
Definition settled (p : PId) (m : Machine) : Prop :=
  exists g st, heap m !! p = Some (mkCell g st)
               /\ match st with Pending _ => False | _ => True end.

(** A handler that throws the string "x" whatever it is given. *)
Definition thrower : Handler :=
  mkHandler 0 (fun _ st => (Throw (VStr "x"), st)).

(** The handler that runs [f] and then [g] on what [f] returned. *)
Definition compose_handlers (g f : Handler) : Handler :=
  mkHandler (hid g)
    (fun v st => match hbody f v st with
                 | (Return x, st') => hbody g x st'
                 | (Throw e, st') => (Throw e, st')
                 end).

(** The handler [x => x]. *)
Definition identity_handler : Handler := mkHandler 2 (fun v st => (Return v, st)).

(** The handler [x => ok(x)]. *)
Definition ok_handler : Handler := mkHandler 3 (fun v st => (Return (VResult (ROk v)), st)).

(** A handler that always returns. *)
Definition never_throws (fn : Handler) : Prop :=
  forall v st, exists x st', hbody fn v st = (Return x, st').

(** An executor that calls two of the capabilities it is given, one
    after the other. *)
Definition calls_two (k1 k2 : PId -> Settler) (x y : Val) (d : PId) : Act Val :=
  fun m => (Return VUndef, settle (k2 d) y (settle (k1 d) x m)).

(** An executor that calls one capability. *)
Definition calls_one (k1 : PId -> Settler) (x : Val) (d : PId) : Act Val :=
  fun m => (Return VUndef, settle (k1 d) x m).

(** One of the three capabilities the constructor hands out. *)
Definition is_capability (k : PId -> Settler) : Prop :=
  k = SettleSuccess \/ k = SettleFailure \/ k = catcher_of.

(** * Properties *)

(** ** The synchronous algebra *)

Lemma next_remaining (it : Iterator) :
  match next it with
  | (Some x, it') => remaining it = x :: remaining it'
  | (None, _) => remaining it = []
  end.
Proof.
  destruct it as [l i | v [|] |]; simpl; try reflexivity.
  destruct (l !! i) as [x|] eqn:E.
  - apply drop_S. exact E.
  - apply drop_ge. apply lookup_ge_None. exact E.
Qed.

(** Pulling an iterator to its end terminates and produces exactly its
    remaining elements, in order. *)
Lemma drain_remaining (n : nat) :
  forall it, (length (remaining it) < n)%nat -> drain n it = Some (remaining it).
Proof.
  induction n as [|n IH]; intros it Hn; [lia|].
  simpl. pose proof (next_remaining it) as Hnext.
  destruct (next it) as [[x|] it'].
  - rewrite Hnext in Hn |- *. simpl in Hn.
    rewrite IH by lia. reflexivity.
  - rewrite Hnext. reflexivity.
Qed.

(** What iterating a Success through [Symbol.iterator] produces. *)
Lemma Result_iterator_ok (value : Val) :
  remaining (Result_iterator (ROk value)) =
  if isIterable value then remaining (symbol_iterator value) else [value].
Proof. simpl. destruct (isIterable value); reflexivity. Qed.

Lemma Result_iterator_array (l : list Val) :
  remaining (Result_iterator (ROk (VArray l))) = l.
Proof. reflexivity. Qed.

Lemma Result_iterator_error (e : Val) :
  remaining (Result_iterator (RError e)) = [].
Proof. reflexivity. Qed.

(** The generator [values] of a Success, by contrast, hands an iterable
    payload's iterator back as its return value and yields nothing. *)
Lemma values_of_iterable (value : Val) :
  isIterable value = true ->
  OkResult.values value =
  {| yielded := []; returned := RetIterator (symbol_iterator value) |}.
Proof. intros H. unfold OkResult.values. rewrite H. reflexivity. Qed.

Lemma values_of_plain (value : Val) :
  isIterable value = false ->
  OkResult.values value = {| yielded := [value]; returned := RetUndefined |}.
Proof. intros H. unfold OkResult.values. rewrite H. reflexivity. Qed.

(** C5 (on [ok([1,2,3])]): iterating the Success through
    [Symbol.iterator] produces 1, 2, 3, and so does [forEach], but the
    generator returned by [values()] yields no element at all: its
    body returns the payload's iterator instead of delegating to it. *)
Theorem C5_values_yields_nothing_for_iterable :
  let payload := VArray [VNum 1; VNum 2; VNum 3] in
  let r := Functions.ok (Some payload) in
  isIterable payload = true
  /\ drain 4 (Result_iterator r) = Some [VNum 1; VNum 2; VNum 3]
  /\ calls (snd (OkResult.forEach payload fail_bad empty_env))
     = [(hid fail_bad, VNum 1); (hid fail_bad, VNum 2); (hid fail_bad, VNum 3)]
  /\ yielded (Result_values r) = []
  /\ returned (Result_values r) =
     RetIterator (ListIterator [VNum 1; VNum 2; VNum 3] 0).
Proof. repeat split. Qed.

(** Every invocation of a handler leaves a trace in the log. *)
Lemma invoke_logged (fn : Handler) (arg : Val) (s : Env) :
  calls (snd (invoke fn arg s)) = calls s ++ [(hid fn, arg)].
Proof. unfold invoke. destruct (hbody fn arg (store s)). reflexivity. Qed.

(** C6. Short-circuit law: on a Failure, [map] (and [andThen]) return
    the same Failure and leave the environment, call log included, as it
    was, whatever the function is; on a Success, [mapErr], [or] and
    [orElse] return the same Success and leave the environment as it
    was.  The continuation is never invoked on the branch it does not
    apply to, whereas on the branch it applies to the call is logged. *)
Theorem C6_short_circuit (e v : Val) (fn : Handler) (other : Result) (s : Env) :
  Result_map (Functions.error e) fn s = (Return (Functions.error e), s)
  /\ Result_andThen (Functions.error e) fn s = (Return (VResult (Functions.error e)), s)
  /\ Result_mapErr (Functions.ok (Some v)) fn s = (Return (Functions.ok (Some v)), s)
  /\ Result_or (Functions.ok (Some v)) other s = (Return (Functions.ok (Some v)), s)
  /\ Result_orElse (Functions.ok (Some v)) fn s = (Return (VResult (Functions.ok (Some v))), s)
  /\ calls (snd (Result_map (Functions.ok (Some v)) fn s)) = calls s ++ [(hid fn, v)]
  /\ calls (snd (Result_mapErr (Functions.error e) fn s)) = calls s ++ [(hid fn, e)].
Proof.
  do 5 (split; [reflexivity|]).
  split; simpl.
  - unfold OkResult.map, bind. rewrite <- (invoke_logged fn v s).
    destruct (invoke fn v s) as [[x|x] s']; reflexivity.
  - unfold ErrorResult.mapErr, bind. rewrite <- (invoke_logged fn e s).
    destruct (invoke fn e s) as [[x|x] s']; reflexivity.
Qed.

Lemma and_loop_first (pre post : list Result) (r : Result) :
  Forall is_ok pre -> is_error r ->
  Functions.and_loop (pre ++ r :: post) = Some r.
Proof.
  intros Hpre Hr. induction Hpre as [|x pre Hx _ IH]; simpl.
  - rewrite Hr. reflexivity.
  - rewrite Hx. exact IH.
Qed.

Lemma and_loop_none (l : list Result) :
  Forall is_ok l -> Functions.and_loop l = None.
Proof.
  induction 1 as [|x l Hx _ IH]; simpl; [reflexivity|].
  rewrite Hx. exact IH.
Qed.

Lemma or_loop_first (pre post : list Result) (r : Result) :
  Forall is_error pre -> is_ok r ->
  Functions.or_loop (pre ++ r :: post) = Some r.
Proof.
  intros Hpre Hr. induction Hpre as [|x pre Hx _ IH]; simpl.
  - rewrite Hr. reflexivity.
  - rewrite Hx. exact IH.
Qed.

Lemma or_loop_none (l : list Result) :
  Forall is_error l -> Functions.or_loop l = None.
Proof.
  induction 1 as [|x l Hx _ IH]; simpl; [reflexivity|].
  rewrite Hx. exact IH.
Qed.

Lemma nonempty_length_eqb {X} (pre post : list X) (x : X) :
  Nat.eqb (length (pre ++ x :: post)) 0 = false.
Proof. rewrite length_app. simpl. apply Nat.eqb_neq. lia. Qed.

Lemma last_index {X} (pre : list X) (x : X) :
  (pre ++ [x]) !! (length (pre ++ [x]) - 1)%nat = Some x.
Proof.
  apply list_lookup_middle. rewrite length_app. simpl. lia.
Qed.

(** C7. [and] returns the first Failure of the sequence when there is
    one and the last element otherwise; [or] returns the first Success
    when there is one and the last element otherwise; both return [ok()]
    on the empty sequence. *)
Theorem C7_and_or (pre post : list Result) (r : Result) :
  Functions.and [] = Functions.ok None
  /\ Functions.or [] = Functions.ok None
  /\ (Forall is_ok pre -> is_error r -> Functions.and (pre ++ r :: post) = r)
  /\ (Forall is_ok (pre ++ [r]) -> Functions.and (pre ++ [r]) = r)
  /\ (Forall is_error pre -> is_ok r -> Functions.or (pre ++ r :: post) = r)
  /\ (Forall is_error (pre ++ [r]) -> Functions.or (pre ++ [r]) = r).
Proof.
  split; [reflexivity|]. split; [reflexivity|].
  split; [|split; [|split]].
  - intros Hpre Hr. unfold Functions.and.
    rewrite nonempty_length_eqb, (and_loop_first _ _ _ Hpre Hr). reflexivity.
  - intros Hall. unfold Functions.and.
    rewrite nonempty_length_eqb, (and_loop_none _ Hall), last_index. reflexivity.
  - intros Hpre Hr. unfold Functions.or.
    rewrite nonempty_length_eqb, (or_loop_first _ _ _ Hpre Hr). reflexivity.
  - intros Hall. unfold Functions.or.
    rewrite nonempty_length_eqb, (or_loop_none _ Hall), last_index. reflexivity.
Qed.

(** [and([ok(1), error("e"), ok(2)])] is [error("e")], [and([ok(1),
    ok(2)])] is [ok(2)], [or([error("a"), ok(3)])] is [ok(3)] and
    [or([error("a"), error("b")])] is [error("b")]. *)
Lemma C7_and_or_witness :
  Functions.and [ROk (VNum 1); RError (VStr "e"); ROk (VNum 2)] = RError (VStr "e")
  /\ Functions.and [ROk (VNum 1); ROk (VNum 2)] = ROk (VNum 2)
  /\ Functions.or [RError (VStr "a"); ROk (VNum 3)] = ROk (VNum 3)
  /\ Functions.or [RError (VStr "a"); RError (VStr "b")] = RError (VStr "b").
Proof.
  pose proof (C7_and_or [ROk (VNum 1)] [ROk (VNum 2)] (RError (VStr "e")))
    as (_ & _ & Hand1 & _).
  pose proof (C7_and_or [ROk (VNum 1)] [] (ROk (VNum 2)))
    as (_ & _ & _ & Hand2 & _).
  pose proof (C7_and_or [RError (VStr "a")] [] (ROk (VNum 3)))
    as (_ & _ & _ & _ & Hor1 & _).
  pose proof (C7_and_or [RError (VStr "a")] [] (RError (VStr "b")))
    as (_ & _ & _ & _ & _ & Hor2).
  split; [|split; [|split]].
  - apply Hand1; [repeat constructor | reflexivity].
  - apply Hand2. repeat constructor.
  - apply Hor1; [repeat constructor | reflexivity].
  - apply Hor2. repeat constructor.
Defined.

(** C8. The free function [flatten] returns the inner Result of a
    Success as it is and an outer Failure unchanged; the method
    [flatten] of a Success returns the payload when the payload is a
    Result and the Success itself otherwise. *)
Theorem C8_flatten (x e v : Val) (inner : Result) :
  Functions.flatten (Functions.ok (Some (VResult (Functions.ok (Some x)))))
    = VResult (Functions.ok (Some x))
  /\ Functions.flatten (Functions.ok (Some (VResult (Functions.error e))))
    = VResult (Functions.error e)
  /\ Functions.flatten (Functions.error e) = VResult (Functions.error e)
  /\ Functions.flatten (Functions.ok (Some (VResult inner))) = VResult inner
  /\ Result_flatten (Functions.ok (Some (VResult inner))) = VResult inner
  /\ (Functions.is_ v = false ->
      Result_flatten (Functions.ok (Some v)) = VResult (Functions.ok (Some v))).
Proof.
  repeat split. intros Hv. simpl. unfold OkResult.flatten. rewrite Hv. reflexivity.
Qed.

Lemma C8_flatten_witness :
  Functions.is_ (VNum 5) = false
  /\ Result_flatten (Functions.ok (Some (VNum 5))) = VResult (Functions.ok (Some (VNum 5))).
Proof.
  split; [reflexivity|].
  apply (C8_flatten VUndef VUndef (VNum 5) (ROk VUndef)). reflexivity.
Defined.

(** ** The promise heap *)

Lemma lookup_fresh (h : list Cell) (c : Cell) :
  (h ++ [c]) !! length h = Some c.
Proof. apply list_lookup_middle. reflexivity. Qed.

Lemma native_resolve_live (p : PId) (g : nat) (rs : list Reaction) (x : Val) (m : Machine) :
  heap m !! p = Some (mkCell g (Pending rs)) ->
  host_thenable x = false ->
  native_resolve p g x m =
  enqueue (fulfill_jobs rs x) (set_heap (<[p := mkCell g (Fulfilled x)]> (heap m)) m).
Proof.
  intros Hp Hx. unfold native_resolve. rewrite Hp, Nat.eqb_refl, Hx.
  replace (same_promise x p) with false; [reflexivity|].
  destruct x; try reflexivity; discriminate Hx.
Qed.

Lemma native_reject_live (p : PId) (g : nat) (rs : list Reaction) (r : Val) (m : Machine) :
  heap m !! p = Some (mkCell g (Pending rs)) ->
  native_reject p g r m =
  enqueue (reject_jobs rs r) (set_heap (<[p := mkCell g (Rejected r)]> (heap m)) m).
Proof.
  intros Hp. unfold native_reject. rewrite Hp, Nat.eqb_refl. reflexivity.
Qed.

Lemma state_of_insert (p : PId) (c c0 : Cell) (m : Machine) (js : list Job) :
  heap m !! p = Some c0 ->
  state_of p (enqueue js (set_heap (<[p := c]> (heap m)) m)) = Some (pstate c).
Proof.
  intros Hp. unfold state_of. simpl.
  rewrite list_lookup_insert_eq by (eapply lookup_lt_Some; exact Hp). reflexivity.
Qed.

(** [ResultPromise.error(e)] is settled as a Failure carrying [e] as soon
    as it is created; nothing else changes. *)
Lemma ResultPromise_error_settled (e : Val) (m : Machine) :
  ResultPromise.error e m =
  (length (heap m),
   set_heap (heap m ++ [mkCell 0 (Fulfilled (VResult (RError e)))]) m).
Proof.
  unfold ResultPromise.error, new_ResultPromise, alloc, settle.
  rewrite (native_resolve_live _ _ []); simpl; [|apply lookup_fresh|reflexivity].
  unfold enqueue, set_heap. simpl. rewrite app_nil_r.
  f_equal. f_equal.
  rewrite insert_app_r_alt by reflexivity.
  rewrite Nat.sub_diag. reflexivity.
Qed.

(** C10. On a Failure [error(e)], [mapAsync] and [andThenAsync] return
    a ResultPromise that is already settled, in the Settled channel, as
    the Failure carrying [e]; the continuation is not invoked (the
    environment and its call log are unchanged) and no job is
    scheduled. *)
Theorem C10_failure_bridge_short_circuits (e : Val) (fn : Handler) (m : Machine) :
  exists d m',
    Result_mapAsync (Functions.error e) fn m = (Return (VResultPromise d), m')
    /\ Result_andThenAsync (Functions.error e) fn m = (Return (VResultPromise d), m')
    /\ heap m !! d = None
    /\ state_of d m' = Some (Fulfilled (VResult (Functions.error e)))
    /\ env m' = env m
    /\ queue m' = queue m.
Proof.
  exists (length (heap m)).
  exists (set_heap (heap m ++ [mkCell 0 (Fulfilled (VResult (RError e)))]) m).
  unfold Result_mapAsync, Result_andThenAsync, Functions.error,
    ErrorResultAsync.mapAsync, ErrorResultAsync.andThenAsync.
  rewrite ResultPromise_error_settled.
  repeat split.
  - apply lookup_ge_None. lia.
  - unfold state_of. simpl. rewrite lookup_fresh. reflexivity.
Qed.

Arguments native_resolve : simpl never.
Arguments native_reject : simpl never.
Arguments native_then : simpl never.
Arguments alloc : simpl never.
Arguments ResultPromise.then_ : simpl never.

(** *** Machines in extended form

    The proofs below follow a machine whose heap is an arbitrary old
    part [h] followed by the cells [L] allocated since; a promise
    allocated since then has identifier [n + k] with [n = length h]. *)

Lemma lookup_ext (h L : list Cell) (n k : nat) :
  length h = n -> (h ++ L) !! (n + k)%nat = L !! k.
Proof.
  intros <-. rewrite lookup_app_r by lia. f_equal. lia.
Qed.

Lemma insert_ext (h L : list Cell) (n k : nat) (c : Cell) :
  length h = n -> <[(n + k)%nat := c]> (h ++ L) = h ++ <[k := c]> L.
Proof.
  intros <-. rewrite insert_app_r_alt by lia. do 2 f_equal. lia.
Qed.

Lemma lookup_int (h L : list Cell) (p : PId) (c : Cell) :
  h !! p = Some c -> (h ++ L) !! p = Some c.
Proof. apply lookup_app_l_Some. Qed.

Lemma insert_int (h L : list Cell) (p : PId) (c c0 : Cell) :
  h !! p = Some c0 -> <[p := c]> (h ++ L) = <[p := c]> h ++ L.
Proof.
  intros H. apply insert_app_l. eapply lookup_lt_Some. exact H.
Qed.

Lemma alloc_ext (h L : list Cell) (n : nat) (q : list Job) (e : Env) :
  length h = n ->
  alloc (mkMachine (h ++ L) q e) =
  ((n + length L)%nat, mkMachine (h ++ (L ++ [fresh])) q e).
Proof.
  intros <-. unfold alloc, set_heap. simpl.
  rewrite length_app, <- app_assoc. reflexivity.
Qed.

Lemma native_resolve_ext (h L : list Cell) (n k g : nat) (rs : list Reaction)
    (x : Val) (q : list Job) (e : Env) :
  length h = n ->
  L !! k = Some (mkCell g (Pending rs)) ->
  host_thenable x = false ->
  native_resolve (n + k) g x (mkMachine (h ++ L) q e) =
  mkMachine (h ++ <[k := mkCell g (Fulfilled x)]> L) (q ++ fulfill_jobs rs x) e.
Proof.
  intros Hn Hk Hx.
  rewrite (native_resolve_live _ _ rs); simpl;
    [| rewrite (lookup_ext _ _ _ _ Hn); exact Hk | exact Hx].
  unfold enqueue, set_heap. simpl. rewrite (insert_ext _ _ _ _ _ Hn). reflexivity.
Qed.

Lemma native_reject_ext (h L : list Cell) (n k g : nat) (rs : list Reaction)
    (r : Val) (q : list Job) (e : Env) :
  length h = n ->
  L !! k = Some (mkCell g (Pending rs)) ->
  native_reject (n + k) g r (mkMachine (h ++ L) q e) =
  mkMachine (h ++ <[k := mkCell g (Rejected r)]> L) (q ++ reject_jobs rs r) e.
Proof.
  intros Hn Hk.
  rewrite (native_reject_live _ _ rs); simpl;
    [| rewrite (lookup_ext _ _ _ _ Hn); exact Hk].
  unfold enqueue, set_heap. simpl. rewrite (insert_ext _ _ _ _ _ Hn). reflexivity.
Qed.

(** Settling an old promise that is pending. *)
Lemma native_resolve_int (h L : list Cell) (p : PId) (g : nat) (rs : list Reaction)
    (x : Val) (q : list Job) (e : Env) :
  h !! p = Some (mkCell g (Pending rs)) ->
  host_thenable x = false ->
  native_resolve p g x (mkMachine (h ++ L) q e) =
  mkMachine (<[p := mkCell g (Fulfilled x)]> h ++ L) (q ++ fulfill_jobs rs x) e.
Proof.
  intros Hp Hx.
  rewrite (native_resolve_live _ _ rs); simpl;
    [| apply lookup_int; exact Hp | exact Hx].
  unfold enqueue, set_heap. simpl. rewrite (insert_int _ _ _ _ _ Hp). reflexivity.
Qed.

Lemma native_reject_int (h L : list Cell) (p : PId) (g : nat) (rs : list Reaction)
    (r : Val) (q : list Job) (e : Env) :
  h !! p = Some (mkCell g (Pending rs)) ->
  native_reject p g r (mkMachine (h ++ L) q e) =
  mkMachine (<[p := mkCell g (Rejected r)]> h ++ L) (q ++ reject_jobs rs r) e.
Proof.
  intros Hp.
  rewrite (native_reject_live _ _ rs); simpl;
    [| apply lookup_int; exact Hp].
  unfold enqueue, set_heap. simpl. rewrite (insert_int _ _ _ _ _ Hp). reflexivity.
Qed.

(** [then] of the host on an old promise. *)
Lemma native_then_ext (sp : Species) (h L : list Cell) (n : nat) (p : PId) (c : Cell)
    (onF onR : option Callback) (q : list Job) (e : Env) :
  length h = n ->
  h !! p = Some c ->
  native_then sp p onF onR (mkMachine (h ++ L) q e) =
  let d := (n + length L)%nat in
  let '(res, rej) := capability sp d in
  (d, match pstate c with
      | Pending rs =>
          mkMachine (<[p := mkCell (gen c) (Pending (rs ++ [mkReaction onF onR res rej]))]> h
                     ++ (L ++ [fresh])) q e
      | Fulfilled v =>
          mkMachine (h ++ (L ++ [fresh])) (q ++ [ReactionJob onF OnFulfilled res rej v]) e
      | Rejected r =>
          mkMachine (h ++ (L ++ [fresh])) (q ++ [ReactionJob onR OnRejected res rej r]) e
      end).
Proof.
  intros Hn Hp. unfold native_then.
  rewrite (alloc_ext _ _ _ _ _ Hn). cbv zeta.
  destruct (capability sp (n + length L)) as [res rej].
  cbn [heap]. rewrite (lookup_int _ _ _ _ Hp).
  destruct c as [g [rs|v|r]]; simpl; try reflexivity.
  unfold set_heap. simpl. rewrite (insert_int _ _ _ _ _ Hp). reflexivity.
Qed.

(** The overriding [then] on an old promise: two cells are allocated,
    the promise it returns and the one the host's [then] derives. *)
Lemma then_ext (h L : list Cell) (n : nat) (this : PId) (c : Cell)
    (onresult onthrow : option Callback) (q : list Job) (e : Env) :
  length h = n ->
  h !! this = Some c ->
  ResultPromise.then_ this onresult onthrow (mkMachine (h ++ L) q e) =
  let d := (n + length L)%nat in
  let d' := (n + length (L ++ [fresh]))%nat in
  let onF := Some (CbThenResult onresult d) in
  let onR := Some (match onthrow with
                   | Some f => CbThenThrow f d
                   | None => CbCont (KSettle (catcher_of d))
                   end) in
  (d, match pstate c with
      | Pending rs =>
          mkMachine (<[this := mkCell (gen c)
                         (Pending (rs ++ [mkReaction onF onR (SettleSuccess d') (SettleFailure d')]))]> h
                     ++ ((L ++ [fresh]) ++ [fresh])) q e
      | Fulfilled v =>
          mkMachine (h ++ ((L ++ [fresh]) ++ [fresh]))
                    (q ++ [ReactionJob onF OnFulfilled (SettleSuccess d') (SettleFailure d') v]) e
      | Rejected r =>
          mkMachine (h ++ ((L ++ [fresh]) ++ [fresh]))
                    (q ++ [ReactionJob onR OnRejected (SettleSuccess d') (SettleFailure d') r]) e
      end).
Proof.
  intros Hn Hp. unfold ResultPromise.then_, new_ResultPromise.
  rewrite (alloc_ext _ _ _ _ _ Hn).
  cbv zeta. cbv beta iota.
  rewrite (native_then_ext _ _ _ _ _ _ _ _ _ _ Hn Hp).
  cbv zeta. simpl capability. cbv beta iota.
  destruct (pstate c); reflexivity.
Qed.

Lemma lookup_updated (h : list Cell) (p : PId) (c c0 : Cell) :
  h !! p = Some c0 -> <[p := c]> h !! p = Some c.
Proof. intros Hp. apply list_lookup_insert_eq. eapply lookup_lt_Some. exact Hp. Qed.

Ltac heap_side :=
  first [ reflexivity
        | rewrite !length_insert; reflexivity
        | eassumption
        | eapply lookup_updated; eassumption
        | rewrite !list_lookup_insert_ne by (assumption || (symmetry; assumption)); eassumption
        | apply list_lookup_insert_eq; rewrite ?length_insert;
          eapply lookup_lt_Some; eassumption ].

(** Rewrites the next settlement of a promise allocated since, or of an
    old pending promise. *)
Ltac settle_step :=
  first
    [ erewrite native_resolve_ext; [| heap_side | reflexivity | reflexivity]
    | erewrite native_reject_ext; [| heap_side | reflexivity]
    | erewrite native_resolve_int; [| heap_side | reflexivity]
    | erewrite native_reject_int; [| heap_side] ];
  simpl.

Lemma state_of_ext (h L : list Cell) (n k : nat) (q : list Job) (e : Env) :
  length h = n ->
  state_of (n + k) (mkMachine (h ++ L) q e) = pstate <$> L !! k.
Proof. intros Hn. unfold state_of. simpl. rewrite (lookup_ext _ _ _ _ Hn). reflexivity. Qed.

Lemma state_of_int (h L : list Cell) (p : PId) (c : Cell) (q : list Job) (e : Env) :
  h !! p = Some c ->
  state_of p (mkMachine (h ++ L) q e) = Some (pstate c).
Proof. intros Hp. unfold state_of. simpl. rewrite (lookup_int _ _ _ _ Hp). reflexivity. Qed.

(** Reads the state of a promise off a machine in extended form. *)
Ltac read_state :=
  simpl;
  first
    [ erewrite state_of_ext; [| heap_side]; reflexivity
    | erewrite state_of_int; [| heap_side]; reflexivity ].

Lemma run_quiescent (n : nat) (m : Machine) : quiescent m -> run n m = m.
Proof.
  unfold quiescent. intros Hq. destruct n as [|n]; [reflexivity|].
  simpl. unfold step. rewrite Hq. reflexivity.
Qed.

Lemma run_S (n : nat) (m : Machine) : run (S n) m = run n (run 1 m).
Proof.
  simpl. destruct (step m) as [m'|] eqn:E; [reflexivity|].
  symmetry. apply run_quiescent. unfold step in E. unfold quiescent.
  destruct (queue m); [reflexivity | discriminate E].
Qed.

(** A promise that [settles_as] stays in that state however many more
    jobs the machine is asked to run. *)
Lemma settles_as_final (d : PId) (st : PState) (m : Machine) (n : nat) :
  settles_as d st m -> state_of d (run (S n) m) = Some st.
Proof.
  intros [Hst Hq]. rewrite run_S, (run_quiescent _ _ Hq). exact Hst.
Qed.

Ltac then_step :=
  first
    [ erewrite then_ext; [| heap_side | heap_side]
    | erewrite native_then_ext; [| heap_side | heap_side] ];
  simpl.

(** Runs the closures of [src/impls/promise.ts] symbolically. *)
Ltac machine_steps :=
  simpl;
  repeat first
    [ settle_step
    | then_step
    | progress (unfold guarded_resolution, unguarded_resolution,
                handleValueResolution, void, js_then, catcher_of,
                set_env, set_heap, enqueue); simpl ].

(** Starting point of the proofs about one machine: its heap is the old
    part, nothing has been allocated yet. *)
Lemma then_at (h : list Cell) (this : PId) (c : Cell)
    (onresult onthrow : option Callback) (q : list Job) (e : Env) :
  h !! this = Some c ->
  ResultPromise.then_ this onresult onthrow (mkMachine h q e) =
  let d := (length h + 0)%nat in
  let d' := (length h + 1)%nat in
  let onF := Some (CbThenResult onresult d) in
  let onR := Some (match onthrow with
                   | Some f => CbThenThrow f d
                   | None => CbCont (KSettle (catcher_of d))
                   end) in
  (d, match pstate c with
      | Pending rs =>
          mkMachine (<[this := mkCell (gen c)
                         (Pending (rs ++ [mkReaction onF onR (SettleSuccess d') (SettleFailure d')]))]> h
                     ++ [fresh; fresh]) q e
      | Fulfilled v =>
          mkMachine (h ++ [fresh; fresh])
                    (q ++ [ReactionJob onF OnFulfilled (SettleSuccess d') (SettleFailure d') v]) e
      | Rejected r =>
          mkMachine (h ++ [fresh; fresh])
                    (q ++ [ReactionJob onR OnRejected (SettleSuccess d') (SettleFailure d') r]) e
      end).
Proof.
  intros Hp.
  pose proof (then_ext h [] (length h) this c onresult onthrow q e eq_refl Hp) as E.
  rewrite app_nil_r in E. exact E.
Qed.

(** C4. [then] without an on-settled handler passes a settled Success on
    to the derived future as a Success with the same value, and a
    settled Failure as a Failure with the same error; without an
    on-fault handler it passes a fault of the source on to the derived
    future's fault channel unchanged.  The source is either settled
    already when [then] is called, or pending and settled afterwards. *)
Theorem C4_then_pass_through (m : Machine) (this : PId) (g : nat)
    (handler : option Callback) (v e r : Val) :
  quiescent m ->
  (heap m !! this = Some (mkCell g (Fulfilled (VResult (ROk v)))) ->
   let '(d, m') := ResultPromise.then_ this None handler m in
   settles_as d (Fulfilled (VResult (ROk v))) m')
  /\ (heap m !! this = Some (mkCell g (Fulfilled (VResult (RError e)))) ->
   let '(d, m') := ResultPromise.then_ this None handler m in
   settles_as d (Fulfilled (VResult (RError e))) m')
  /\ (heap m !! this = Some (mkCell g (Rejected r)) ->
   let '(d, m') := ResultPromise.then_ this handler None m in
   settles_as d (Rejected r) m')
  /\ (heap m !! this = Some (mkCell 0 (Pending [])) ->
   let '(d, m') := ResultPromise.then_ this None handler m in
   state_of d m' = Some (Pending [])
   /\ settles_as d (Fulfilled (VResult (ROk v))) (settle (SettleSuccess this) v m')
   /\ settles_as d (Fulfilled (VResult (RError e))) (settle (SettleFailure this) e m'))
  /\ (heap m !! this = Some (mkCell 0 (Pending [])) ->
   let '(d, m') := ResultPromise.then_ this handler None m in
   settles_as d (Rejected r) (settle (catcher_of this) r m')).
Proof.
  destruct m as [h q en]. unfold quiescent, settles_as. simpl. intros ->.
  split; [|split; [|split; [|split]]];
    intros Hthis; rewrite (then_at _ _ _ _ _ _ _ Hthis); simpl.
  - machine_steps. split; [read_state | reflexivity].
  - machine_steps. split; [read_state | reflexivity].
  - machine_steps. split; [read_state | reflexivity].
  - split; [read_state|].
    split; machine_steps; (split; [read_state | reflexivity]).
  - machine_steps. split; [read_state | reflexivity].
Qed.

Lemma C4_then_pass_through_witness :
  let m := snd (ResultPromise.ok (Some (VNum 2)) init) in
  quiescent m
  /\ heap m !! 0 = Some (mkCell 0 (Fulfilled (VResult (ROk (VNum 2)))))
  /\ settles_as 1 (Fulfilled (VResult (ROk (VNum 2))))
       (snd (ResultPromise.then_ 0 None None m)).
Proof.
  split; [reflexivity|]. split; [reflexivity|].
  exact (proj1 (C4_then_pass_through
                  (snd (ResultPromise.ok (Some (VNum 2)) init))
                  0 0 None (VNum 2) VUndef VUndef eq_refl) eq_refl).
Defined.

(** *** Settled promises stay as they are *)

Lemma native_resolve_settled (p : PId) (g : nat) (x : Val) (m : Machine) :
  settled p m -> native_resolve p g x m = m.
Proof.
  intros (g' & st & Hp & Hst). unfold native_resolve. rewrite Hp.
  destruct st; [destruct Hst | reflexivity | reflexivity].
Qed.

Lemma native_reject_settled (p : PId) (g : nat) (x : Val) (m : Machine) :
  settled p m -> native_reject p g x m = m.
Proof.
  intros (g' & st & Hp & Hst). unfold native_reject. rewrite Hp.
  destruct st; [destruct Hst | reflexivity | reflexivity].
Qed.

(** Once a promise is settled, a thenable that keeps calling the
    promise's own capabilities changes nothing. *)
Lemma then_calls_settled (d : PId) (cs : list (Channel * Val)) (onF onR : Settler) (m : Machine) :
  settled d m ->
  (onF = SettleSuccess d \/ onF = SettleFailure d \/ onF = catcher_of d) ->
  (onR = SettleSuccess d \/ onR = SettleFailure d \/ onR = catcher_of d) ->
  then_calls cs (KSettle onF) (KSettle onR) m = (Return VUndef, m).
Proof.
  intros Hd HF HR. induction cs as [|[ch x] cs IH]; [reflexivity|].
  assert (forall s, s = SettleSuccess d \/ s = SettleFailure d \/ s = catcher_of d ->
                    settle s x m = m) as Hs.
  { intros s [-> | [-> | ->]]; simpl;
      [apply native_resolve_settled | apply native_resolve_settled
       | apply native_reject_settled]; exact Hd. }
  destruct ch; simpl; rewrite Hs by assumption; exact IH.
Qed.

Lemma alloc_at (h : list Cell) (q : list Job) (e : Env) :
  alloc (mkMachine h q e) = ((length h + 0)%nat, mkMachine (h ++ [fresh]) q e).
Proof. unfold alloc, set_heap. simpl. rewrite Nat.add_0_r. reflexivity. Qed.

Lemma settled_int (h L : list Cell) (p : PId) (g : nat) (st : PState) (q : list Job) (e : Env) :
  h !! p = Some (mkCell g st) ->
  match st with Pending _ => False | _ => True end ->
  settled p (mkMachine (h ++ L) q e).
Proof.
  intros Hp Hst. exists g, st. simpl. rewrite (lookup_int _ _ _ _ Hp). auto.
Qed.

Lemma settled_ext (h L : list Cell) (n k g : nat) (st : PState) (q : list Job) (e : Env) :
  length h = n ->
  L !! k = Some (mkCell g st) ->
  match st with Pending _ => False | _ => True end ->
  settled (n + k) (mkMachine (h ++ L) q e).
Proof.
  intros Hn Hk Hst. exists g, st. simpl. rewrite (lookup_ext _ _ _ _ Hn). auto.
Qed.

(** C3. [from] adapts a foreign future: its normal completion with [x]
    settles the AsyncResult as the Success of [x], its rejection with
    [r] settles it as the Failure of [r], in the Settled channel.  The
    foreign future is a promise of the host, settled before [from] is
    called or pending and settled afterwards, or an object whose [then]
    calls one of its callbacks; a function is called first and the
    future it returns is adapted. *)
Theorem C3_from_foreign_future (m : Machine) (p : PId) (g : nat) (x r : Val)
    (inh : bool) (cs : list (Channel * Val)) (it : option (list Val)) :
  quiescent m ->
  (heap m !! p = Some (mkCell g (Fulfilled x)) ->
   let '(d, m') := AsyncResult.from (VNativePromise p) m in
   settles_as d (Fulfilled (VResult (ROk x))) m')
  /\ (heap m !! p = Some (mkCell g (Rejected r)) ->
   let '(d, m') := AsyncResult.from (VNativePromise p) m in
   settles_as d (Fulfilled (VResult (RError r))) m')
  /\ (heap m !! p = Some (mkCell g (Pending [])) ->
   host_thenable x = false ->
   let '(d, m') := AsyncResult.from (VNativePromise p) m in
   state_of d m' = Some (Pending [])
   /\ settles_as d (Fulfilled (VResult (ROk x))) (native_resolve p g x m')
   /\ settles_as d (Fulfilled (VResult (RError r))) (native_reject p g r m'))
  /\ (let '(d, m') := AsyncResult.from (VObject inh (Some ((OnFulfilled, x) :: cs)) it) m in
      state_of d m' = Some (Fulfilled (VResult (ROk x))) /\ quiescent m')
  /\ (let '(d, m') := AsyncResult.from (VObject inh (Some ((OnRejected, r) :: cs)) it) m in
      state_of d m' = Some (Fulfilled (VResult (RError r))) /\ quiescent m')
  /\ (forall fn arg promise m1,
      returns fn arg m promise m1 ->
      AsyncResult.from_fn fn arg m =
      (let '(d, m') := AsyncResult.from promise m1 in (Return d, m'))).
Proof.
  destruct m as [h q en]. unfold quiescent, settles_as. simpl. intros ->.
  split; [|split; [|split; [|split; [|split]]]].
  - intros Hp. unfold AsyncResult.from, new_ResultPromise.
    rewrite alloc_at. machine_steps. split; [read_state | reflexivity].
  - intros Hp. unfold AsyncResult.from, new_ResultPromise.
    rewrite alloc_at. machine_steps. split; [read_state | reflexivity].
  - intros Hp Hx. unfold AsyncResult.from, new_ResultPromise.
    rewrite alloc_at. machine_steps.
    split; [read_state|].
    split.
    + erewrite native_resolve_int; [| heap_side | exact Hx].
      machine_steps. split; [read_state | reflexivity].
    + machine_steps. split; [read_state | reflexivity].
  - unfold AsyncResult.from, new_ResultPromise.
    rewrite alloc_at. machine_steps.
    rewrite (then_calls_settled (length h + 0)).
    + split; [read_state | reflexivity].
    + eapply (settled_ext _ _ _ 0); [reflexivity | reflexivity | exact I].
    + auto.
    + auto.
  - unfold AsyncResult.from, new_ResultPromise.
    rewrite alloc_at. machine_steps.
    rewrite (then_calls_settled (length h + 0)).
    + split; [read_state | reflexivity].
    + eapply (settled_ext _ _ _ 0); [reflexivity | reflexivity | exact I].
    + auto.
    + auto.
  - intros fn arg promise m1 Hret. unfold AsyncResult.from_fn.
    unfold returns in Hret. rewrite Hret. reflexivity.
Qed.

Lemma C3_from_foreign_future_witness :
  let m := mkMachine [mkCell 0 (Rejected (VStr "nope"))] [] empty_env in
  quiescent m
  /\ heap m !! 0 = Some (mkCell 0 (Rejected (VStr "nope")))
  /\ settles_as 1 (Fulfilled (VResult (RError (VStr "nope"))))
       (snd (AsyncResult.from (VNativePromise 0) m)).
Proof.
  split; [reflexivity|]. split; [reflexivity|].
  exact (proj1 (proj2 (C3_from_foreign_future
                  (mkMachine [mkCell 0 (Rejected (VStr "nope"))] [] empty_env)
                  0 0 VUndef (VStr "nope") true [] None eq_refl)) eq_refl).
Defined.

Lemma extend_machine (h : list Cell) (q : list Job) (e : Env) :
  mkMachine h q e = mkMachine (h ++ []) q e.
Proof. rewrite app_nil_r. reflexivity. Qed.

(** What each closure of [src/impls/promise.ts] does with the value its
    handler returns: it hands it to the value-resolution algorithm with
    the capabilities of the derived future. *)
Lemma closures_delegate (m m1 : Machine) (d : PId) (fn other : Handler) (arg v : Val) :
  returns fn arg m v m1 ->
  call (CbThenResult (Some (CbUser fn)) d) arg m = resolution v d m1
  /\ call (CbThenThrow (CbUser fn) d) arg m = resolution v d m1
  /\ call (CbCatch fn d) arg m = resolution v d m1
  /\ call (CbMap fn d) (VResult (ROk arg)) m = resolution v d m1
  /\ call (CbMapOrElse other fn d) (VResult (ROk arg)) m = resolution v d m1
  /\ call (CbMapOrElse fn other d) (VResult (RError arg)) m = resolution v d m1
  /\ call (CbAndThen fn d) (VResult (ROk arg)) m = resolution v d m1
  /\ call (CbOrElse fn d) (VResult (RError arg)) m = resolution v d m1.
Proof.
  unfold returns. intros Hret.
  repeat split; simpl; unfold guarded_resolution, unguarded_resolution;
    rewrite Hret; reflexivity.
Qed.


(** *** A promise is settled at most once

    Nothing the machine does changes a promise that has been settled. *)

Lemma final_state (d : PId) (st : PState) (m : Machine) :
  final d st m -> state_of d m = Some st.
Proof. intros (g & Hd & _). unfold state_of. rewrite Hd. reflexivity. Qed.

Lemma final_heap (d : PId) (st : PState) (m m' : Machine) :
  heap m' = heap m -> final d st m -> final d st m'.
Proof. intros Hh (g & Hd & Hst). exists g. rewrite Hh. auto. Qed.

Lemma final_insert (d p : PId) (st : PState) (c : Cell) (rs : list Reaction)
    (g : nat) (js : list Job) (m : Machine) :
  heap m !! p = Some (mkCell g (Pending rs)) ->
  final d st m ->
  final d st (enqueue js (set_heap (<[p := c]> (heap m)) m)).
Proof.
  intros Hp (g' & Hd & Hst). exists g'. simpl. split; [|exact Hst].
  rewrite list_lookup_insert_ne; [exact Hd|].
  intros ->. rewrite Hp in Hd. injection Hd as _ <-. exact Hst.
Qed.

Lemma final_alloc (d : PId) (st : PState) (m : Machine) :
  final d st m -> final d st (snd (alloc m)).
Proof.
  intros (g & Hd & Hst). exists g. simpl. split; [|exact Hst].
  apply lookup_app_l_Some. exact Hd.
Qed.

Lemma final_native_resolve (d p : PId) (g : nat) (x : Val) (st : PState) (m : Machine) :
  final d st m -> final d st (native_resolve p g x m).
Proof.
  intros Hd. unfold native_resolve.
  destruct (heap m !! p) as [[g' [rs|v|r]]|] eqn:Hp; try exact Hd.
  destruct (Nat.eqb g g'); [|exact Hd].
  destruct (same_promise x p); [|destruct (host_thenable x)];
    eapply final_insert; eauto.
Qed.

Lemma final_native_reject (d p : PId) (g : nat) (x : Val) (st : PState) (m : Machine) :
  final d st m -> final d st (native_reject p g x m).
Proof.
  intros Hd. unfold native_reject.
  destruct (heap m !! p) as [[g' [rs|v|r]]|] eqn:Hp; try exact Hd.
  destruct (Nat.eqb g g'); [|exact Hd].
  eapply final_insert; eauto.
Qed.

Lemma final_settle (d : PId) (s : Settler) (x : Val) (st : PState) (m : Machine) :
  final d st m -> final d st (settle s x m).
Proof.
  intros Hd. destruct s; simpl;
    first [apply final_native_resolve | apply final_native_reject]; exact Hd.
Qed.

Lemma final_apply_cont (d : PId) (k : Cont) (arg : Val) (st : PState) (m : Machine) :
  final d st m -> final d st (snd (apply_cont k arg m)).
Proof.
  intros Hd. destruct k as [s|s1 s2]; simpl.
  - apply final_settle. exact Hd.
  - destruct arg as [| | | |[value|error]| | |]; simpl;
      first [exact Hd | apply final_settle; exact Hd].
Qed.

Lemma final_native_then (d : PId) (sp : Species) (p : PId) (onF onR : option Callback)
    (st : PState) (m : Machine) :
  final d st m -> final d st (snd (native_then sp p onF onR m)).
Proof.
  intros Hd. apply final_alloc in Hd. unfold native_then.
  destruct (alloc m) as [d' m1]. simpl in Hd.
  destruct (capability sp d') as [res rej].
  destruct (heap m1 !! p) as [[g [rs|v|r]]|] eqn:Hp; simpl.
  - eapply final_heap;
      [| exact (final_insert d p st
                  (mkCell g (Pending (rs ++ [mkReaction onF onR res rej])))
                  rs g [] m1 Hp Hd)].
    reflexivity.
  - eapply final_heap; [|exact Hd]. reflexivity.
  - eapply final_heap; [|exact Hd]. reflexivity.
  - exact Hd.
Qed.

Lemma final_new_ResultPromise (d : PId) (st : PState) (executor : PId -> Act Val) (m : Machine) :
  (forall d' m', final d st m' -> final d st (snd (executor d' m'))) ->
  final d st m -> final d st (snd (new_ResultPromise executor m)).
Proof.
  intros Hex Hd. apply final_alloc in Hd. unfold new_ResultPromise.
  destruct (alloc m) as [d' m1]. simpl in Hd.
  specialize (Hex d' m1 Hd). destruct (executor d' m1) as [[v|e] m2]; simpl in *.
  - exact Hex.
  - apply final_native_reject. exact Hex.
Qed.

Lemma final_then (d this : PId) (onresult onthrow : option Callback)
    (st : PState) (m : Machine) :
  final d st m -> final d st (snd (ResultPromise.then_ this onresult onthrow m)).
Proof.
  intros Hd. unfold ResultPromise.then_. apply final_new_ResultPromise; [|exact Hd].
  intros d' m' Hd'.
  match goal with
  | |- context [native_then ?sp ?p ?f ?r m'] =>
      pose proof (final_native_then d sp p f r st m' Hd') as H;
      destruct (native_then sp p f r m') as [d'' m2]
  end.
  exact H.
Qed.

Lemma final_then_calls (d : PId) (cs : list (Channel * Val)) (onF onR : Cont)
    (st : PState) :
  forall m, final d st m -> final d st (snd (then_calls cs onF onR m)).
Proof.
  induction cs as [|[ch x] cs IH]; intros m Hd; simpl; [exact Hd|].
  pose proof (final_apply_cont d (match ch with OnFulfilled => onF | OnRejected => onR end)
                x st m Hd) as H.
  destruct (apply_cont _ x m) as [[v|e] m']; simpl in H.
  - apply IH. exact H.
  - exact H.
Qed.

Lemma final_js_then (d : PId) (v : Val) (onF onR : Cont) (st : PState) (m : Machine) :
  final d st m -> final d st (snd (js_then v onF onR m)).
Proof.
  intros Hd. unfold js_then.
  destruct v as [| | | | |p|p|inh [cs|] it]; try exact Hd.
  - pose proof (final_native_then d NativeSpecies p (Some (CbCont onF)) (Some (CbCont onR))
                  st m Hd) as H.
    destruct (native_then _ _ _ _ m) as [d' m']. exact H.
  - pose proof (final_then d p (Some (CbCont onF)) (Some (CbCont onR)) st m Hd) as H.
    destruct (ResultPromise.then_ _ _ _ m) as [d' m']. exact H.
  - apply final_then_calls. exact Hd.
Qed.

Lemma final_void (d : PId) (c : Act Val) (st : PState) (m : Machine) :
  final d st (snd (c m)) -> final d st (snd (void c m)).
Proof. unfold void. destruct (c m) as [[v|e] m']; auto. Qed.

Lemma final_handleValueResolution (d : PId) (v : Val) (s1 s2 s3 : Settler)
    (st : PState) (m : Machine) :
  final d st m -> final d st (snd (handleValueResolution v s1 s2 s3 m)).
Proof.
  intros Hd. unfold handleValueResolution.
  destruct (isThenable v).
  - destruct (instanceof_ResultPromise v); apply final_void, final_js_then; exact Hd.
  - destruct (Functions.is_ v); apply final_apply_cont; exact Hd.
Qed.

Lemma final_lift {B} (d : PId) (c : M B) (st : PState) (m : Machine) :
  final d st m -> final d st (snd (lift c m)).
Proof.
  intros Hd. unfold lift. destruct (c (env m)) as [o e]. simpl.
  eapply final_heap; [|exact Hd]. reflexivity.
Qed.

Lemma final_guarded (d d' : PId) (c : Act Val) (st : PState) (m : Machine) :
  final d st (snd (c m)) -> final d st (snd (guarded_resolution c d' m)).
Proof.
  intros H. unfold guarded_resolution. destruct (c m) as [[v|e] m']; simpl in *.
  - apply final_handleValueResolution. exact H.
  - apply (final_settle d (catcher_of d')). exact H.
Qed.

Lemma final_unguarded (d d' : PId) (c : Act Val) (st : PState) (m : Machine) :
  final d st (snd (c m)) -> final d st (snd (unguarded_resolution c d' m)).
Proof.
  intros H. unfold unguarded_resolution. destruct (c m) as [[v|e] m']; simpl in *.
  - apply final_handleValueResolution. exact H.
  - exact H.
Qed.

Lemma final_call (d : PId) (st : PState) :
  forall cb arg m, final d st m -> final d st (snd (call cb arg m)).
Proof.
  fix IH 1.
  intros [k|fn|[h|] d'|h d'|h d'|fn d'|dv fn d'|fn d'|fn d'] arg m Hd; simpl.
  - apply final_apply_cont. exact Hd.
  - apply final_lift. exact Hd.
  - apply final_guarded. apply IH. exact Hd.
  - apply (final_apply_cont d (KRoute (SettleSuccess d') (SettleFailure d'))). exact Hd.
  - apply final_guarded. apply IH. exact Hd.
  - apply final_guarded, final_lift. exact Hd.
  - destruct arg as [| | | |[value|error]| | |]; simpl;
      first [ exact Hd
            | apply final_unguarded, final_lift; exact Hd
            | apply final_native_resolve; exact Hd ].
  - destruct arg as [| | | |[value|error]| | |]; simpl;
      first [ exact Hd
            | apply final_unguarded, final_lift; exact Hd
            | apply final_native_resolve; exact Hd ].
  - destruct arg as [| | | |[value|error]| | |]; simpl;
      first [ exact Hd
            | apply final_unguarded, final_lift; exact Hd
            | apply final_native_resolve; exact Hd ].
  - destruct arg as [| | | |[value|error]| | |]; simpl;
      first [ exact Hd
            | apply final_unguarded, final_lift; exact Hd
            | apply final_native_resolve; exact Hd ].
Qed.

Lemma final_run_job (d : PId) (st : PState) (j : Job) (m : Machine) :
  final d st m -> final d st (run_job j m).
Proof.
  intros Hd. destruct j as [[h|] ch res rej arg | p g thenable]; simpl.
  - pose proof (final_call d st h arg m Hd) as H.
    destruct (call h arg m) as [[v|e] m']; apply final_settle; exact H.
  - destruct ch; apply final_settle; exact Hd.
  - pose proof (final_js_then d thenable (KSettle (NativeResolve p g))
                  (KSettle (NativeReject p g)) st m Hd) as H.
    destruct (js_then _ _ _ m) as [[v|e] m']; simpl in H.
    + exact H.
    + apply final_native_reject. exact H.
Qed.

(** However many jobs run, a settled promise keeps its outcome. *)
Lemma final_run (d : PId) (st : PState) (n : nat) :
  forall m, final d st m -> final d st (run n m).
Proof.
  induction n as [|n IH]; intros m Hd; simpl; [exact Hd|].
  unfold step. destruct (queue m) as [|j q] eqn:Hq; [exact Hd|].
  apply IH, final_run_job. eapply final_heap; [|exact Hd]. reflexivity.
Qed.

Lemma final_int (h L : list Cell) (p : PId) (g : nat) (st : PState) (q : list Job) (e : Env) :
  h !! p = Some (mkCell g st) ->
  match st with Pending _ => False | _ => True end ->
  final p st (mkMachine (h ++ L) q e).
Proof.
  intros Hp Hst. exists g. simpl. rewrite (lookup_int _ _ _ _ Hp). auto.
Qed.

(** Reads the final state of a settled promise off a machine in
    extended form, whatever else the machine goes on to run. *)
Ltac final_state_tac :=
  apply final_state, final_run; eapply final_int; [heap_side | exact I].

(** C1, amended.  The value [v] returned by the handler of [then]
    (either one), [catch], [map], [mapOrElse], [andThen] or [orElse]
    goes through the value-resolution algorithm with the capabilities
    of the derived future [d], which routes it as follows, [d] being
    pending:
    - a Result: a Success settles [d] as a Success of its value, a
      Failure as a Failure of its error;
    - a value that [isThenable] does not accept and that is not a
      Result settles [d] as a Success of the value itself; an object
      with a callable [then] that is not an instance of [Object] is
      such a value;
    - a thenable other than a ResultPromise (an object that [isThenable]
      accepts, or a promise of the host): its normal completion settles
      [d] as a Success, its rejection faults [d];
    - a ResultPromise: its settled Success / Failure settles [d] as the
      same Success / Failure, its fault faults [d].
    A promise is either settled when the handler returns it, or pending
    and settled afterwards; its reaction is then the one job waiting.
    The outcome of [d] is final: it holds after any number of jobs. *)
Theorem C1_value_resolution (m m0 m1 : Machine) (d p : PId) (g : nat)
    (rs : list Reaction) (fn other : Handler) (arg v x e r : Val)
    (cs : list (Channel * Val)) (it : option (list Val)) (n : nat) :
  (returns fn arg m0 v m1 ->
   call (CbThenResult (Some (CbUser fn)) d) arg m0 = resolution v d m1
   /\ call (CbThenThrow (CbUser fn) d) arg m0 = resolution v d m1
   /\ call (CbCatch fn d) arg m0 = resolution v d m1
   /\ call (CbMap fn d) (VResult (ROk arg)) m0 = resolution v d m1
   /\ call (CbMapOrElse other fn d) (VResult (ROk arg)) m0 = resolution v d m1
   /\ call (CbMapOrElse fn other d) (VResult (RError arg)) m0 = resolution v d m1
   /\ call (CbAndThen fn d) (VResult (ROk arg)) m0 = resolution v d m1
   /\ call (CbOrElse fn d) (VResult (RError arg)) m0 = resolution v d m1)
  /\ (heap m !! d = Some (mkCell 0 (Pending rs)) ->
      let after w := snd (resolution w d m) in
      (* a Result *)
      state_of d (run n (after (VResult (ROk x)))) = Some (Fulfilled (VResult (ROk x)))
      /\ state_of d (run n (after (VResult (RError e)))) = Some (Fulfilled (VResult (RError e)))
      (* neither thenable nor a Result *)
      /\ (isThenable v = false -> Functions.is_ v = false ->
          state_of d (run n (after v)) = Some (Fulfilled (VResult (ROk v))))
      (* an object with a [then] method *)
      /\ state_of d (run n (after (VObject true (Some ((OnFulfilled, x) :: cs)) it)))
         = Some (Fulfilled (VResult (ROk x)))
      /\ state_of d (run n (after (VObject true (Some ((OnRejected, r) :: cs)) it)))
         = Some (Rejected r)
      /\ (quiescent m ->
          (* a promise of the host, settled *)
          (heap m !! p = Some (mkCell g (Fulfilled x)) ->
           state_of d (run (S n) (after (VNativePromise p)))
           = Some (Fulfilled (VResult (ROk x))))
          /\ (heap m !! p = Some (mkCell g (Rejected r)) ->
           state_of d (run (S n) (after (VNativePromise p))) = Some (Rejected r))
          (* a promise of the host, pending *)
          /\ (heap m !! p = Some (mkCell g (Pending [])) -> p <> d ->
           host_thenable x = false ->
           state_of d (after (VNativePromise p)) = Some (Pending rs)
           /\ state_of d (run (S n) (native_resolve p g x (after (VNativePromise p))))
              = Some (Fulfilled (VResult (ROk x)))
           /\ state_of d (run (S n) (native_reject p g r (after (VNativePromise p))))
              = Some (Rejected r))
          (* a ResultPromise, settled *)
          /\ (heap m !! p = Some (mkCell g (Fulfilled (VResult (ROk x)))) ->
           state_of d (run (S n) (after (VResultPromise p)))
           = Some (Fulfilled (VResult (ROk x))))
          /\ (heap m !! p = Some (mkCell g (Fulfilled (VResult (RError e)))) ->
           state_of d (run (S n) (after (VResultPromise p)))
           = Some (Fulfilled (VResult (RError e))))
          /\ (heap m !! p = Some (mkCell g (Rejected r)) ->
           state_of d (run (S n) (after (VResultPromise p))) = Some (Rejected r))
          (* a ResultPromise, pending *)
          /\ (heap m !! p = Some (mkCell 0 (Pending [])) -> p <> d ->
           state_of d (after (VResultPromise p)) = Some (Pending rs)
           /\ state_of d (run (S n) (settle (SettleSuccess p) x (after (VResultPromise p))))
              = Some (Fulfilled (VResult (ROk x)))
           /\ state_of d (run (S n) (settle (SettleFailure p) e (after (VResultPromise p))))
              = Some (Fulfilled (VResult (RError e)))
           /\ state_of d (run (S n) (settle (catcher_of p) r (after (VResultPromise p))))
              = Some (Rejected r)))).
Proof.
  split; [apply closures_delegate|].
  destruct m as [h q en]. simpl. intros Hd.
  rewrite (extend_machine h q en).
  unfold resolution, handleValueResolution. simpl isThenable. cbv iota.
  split; [|split; [|split; [|split; [|split]]]].
  - machine_steps. final_state_tac.
  - machine_steps. final_state_tac.
  - intros Ht Hr. rewrite Ht, Hr. machine_steps. final_state_tac.
  - machine_steps. rewrite (then_calls_settled d).
    + simpl. final_state_tac.
    + eapply settled_int; [heap_side | exact I].
    + auto.
    + auto.
  - machine_steps. rewrite (then_calls_settled d).
    + simpl. final_state_tac.
    + eapply settled_int; [heap_side | exact I].
    + auto.
    + auto.
  - unfold quiescent. simpl. intros ->.
    split; [|split; [|split; [|split; [|split; [|split]]]]].
    + intros Hp. machine_steps. final_state_tac.
    + intros Hp. machine_steps. final_state_tac.
    + intros Hp Hne Hx. machine_steps.
      split; [read_state|]. split.
      * erewrite native_resolve_int; [| heap_side | exact Hx].
        machine_steps. final_state_tac.
      * machine_steps. final_state_tac.
    + intros Hp. machine_steps. final_state_tac.
    + intros Hp. machine_steps. final_state_tac.
    + intros Hp. machine_steps. final_state_tac.
    + intros Hp Hne. machine_steps.
      split; [read_state|]. split; [|split]; machine_steps; final_state_tac.
Qed.

Lemma C1_value_resolution_witness :
  let m := mkMachine [fresh; mkCell 0 (Rejected (VStr "nope"))] [] empty_env in
  let m1 := mkMachine [fresh; mkCell 0 (Rejected (VStr "nope"))] []
              (mkEnv [] [(1, VNum 2)]) in
  returns fail_bad (VNum 2) m (VResult (RError (VStr "bad"))) m1
  /\ quiescent m1
  /\ heap m1 !! 0 = Some (mkCell 0 (Pending []))
  /\ heap m1 !! 1 = Some (mkCell 0 (Rejected (VStr "nope")))
  /\ call (CbAndThen fail_bad 0) (VResult (ROk (VNum 2))) m
     = resolution (VResult (RError (VStr "bad"))) 0 m1
  /\ state_of 0 (run 5 (snd (resolution (VResult (RError (VStr "bad"))) 0 m1)))
     = Some (Fulfilled (VResult (RError (VStr "bad"))))
  /\ state_of 0 (run 6 (snd (resolution (VNativePromise 1) 0 m1)))
     = Some (Rejected (VStr "nope")).
Proof.
  pose proof (C1_value_resolution
                (mkMachine [fresh; mkCell 0 (Rejected (VStr "nope"))] []
                   (mkEnv [] [(1, VNum 2)]))
                (mkMachine [fresh; mkCell 0 (Rejected (VStr "nope"))] [] empty_env)
                (mkMachine [fresh; mkCell 0 (Rejected (VStr "nope"))] []
                   (mkEnv [] [(1, VNum 2)]))
                0 1 0 [] fail_bad fail_bad (VNum 2)
                (VResult (RError (VStr "bad"))) VUndef (VStr "bad") (VStr "nope")
                [] None 5)
    as [HA HB].
  specialize (HA eq_refl). specialize (HB eq_refl).
  destruct HB as (_ & HB2 & _ & _ & _ & HB6).
  destruct (HB6 eq_refl) as (_ & HB7 & _).
  split; [reflexivity|]. split; [reflexivity|]. split; [reflexivity|].
  split; [reflexivity|].
  split; [apply HA|].
  split; [exact HB2 | exact (HB7 eq_refl)].
Defined.

(** C1 as stated fails when "thenable" is read by capability (any
    object with a callable [then]): the algorithm takes for a future
    only what [isThenable] accepts, an instance of [Object].  An object
    without [Object.prototype] on its prototype chain whose [then]
    would complete with 1, or reject with "nope", goes through the last
    branch: its [then] is not called, and the derived future is settled
    for good as a Success whose payload is the object itself, where
    splicing would have given a Success of 1 and a fault with "nope". *)
Lemma C1_null_prototype_thenable_not_spliced :
  let completes := VObject false (Some [(OnFulfilled, VNum 1)]) None in
  let rejects := VObject false (Some [(OnRejected, VStr "nope")]) None in
  let m := mkMachine [fresh] [] empty_env in
  (then_is_Function completes = true /\ then_is_Function rejects = true)
  /\ (instanceof_ResultPromise completes = false
      /\ instanceof_ResultPromise rejects = false)
  /\ pending_in 0 m
  /\ resolution completes 0 m = plain_payload completes 0 m
  /\ resolution rejects 0 m = plain_payload rejects 0 m
  /\ (forall n, state_of 0 (run n (snd (resolution completes 0 m)))
                = Some (Fulfilled (VResult (ROk completes))))
  /\ (forall n, state_of 0 (run n (snd (resolution rejects 0 m)))
                = Some (Fulfilled (VResult (ROk rejects))))
  /\ state_of 0 (snd (spliced completes 0 m))
     = Some (Fulfilled (VResult (ROk (VNum 1))))
  /\ state_of 0 (snd (spliced rejects 0 m)) = Some (Rejected (VStr "nope")).
Proof.
  cbv zeta.
  split; [split; reflexivity|]. split; [split; reflexivity|].
  split; [exists 0, []; reflexivity|].
  split; [reflexivity|]. split; [reflexivity|].
  split; [|split; [|split; reflexivity]].
  - intros n. apply final_state, final_run. exists 0. split; [reflexivity | exact I].
  - intros n. apply final_state, final_run. exists 0. split; [reflexivity | exact I].
Qed.

(** *** Handlers that throw *)

Lemma via_then_at (h : list Cell) (this : PId) (c : Cell)
    (closure : PId -> Callback) (q : list Job) (e : Env) :
  h !! this = Some c ->
  AsyncResult.via_then this closure (mkMachine h q e) =
  let d := (length h + 0)%nat in
  let '(_, m') := ResultPromise.then_ this (Some (closure d)) None
                    (mkMachine (h ++ [fresh]) q e) in
  (d, m').
Proof.
  intros Hp. unfold AsyncResult.via_then, new_ResultPromise.
  rewrite alloc_at. cbv zeta beta iota.
  destruct (ResultPromise.then_ this _ None _) as [d' m']. reflexivity.
Qed.

(** In [then] and [catch] the handler is called inside a [try]: what it
    throws faults the derived future. *)
Lemma then_catch_throw_faults (m : Machine) (this : PId) (g : nat)
    (fn : Handler) (res reason x : Val) (st : Store) :
  quiescent m ->
  (heap m !! this = Some (mkCell g (Fulfilled res)) ->
   hbody fn res (store (env m)) = (Throw x, st) ->
   forall onthrow,
   let '(d, m') := ResultPromise.then_ this (Some (CbUser fn)) onthrow m in
   state_of d (run 1 m') = Some (Rejected x))
  /\ (heap m !! this = Some (mkCell g (Rejected reason)) ->
   hbody fn reason (store (env m)) = (Throw x, st) ->
   (forall onresult,
    let '(d, m') := ResultPromise.then_ this onresult (Some (CbUser fn)) m in
    state_of d (run 1 m') = Some (Rejected x))
   /\ (let '(d, m') := AsyncResult.catch this (Some fn) m in
       state_of d (run 1 m') = Some (Rejected x))).
Proof.
  destruct m as [h q en]. unfold quiescent. simpl. intros ->.
  split.
  - intros Hthis Hfn onthrow. rewrite (then_at _ _ _ _ _ _ _ Hthis).
    simpl. unfold guarded_resolution, lift, invoke. simpl. rewrite Hfn.
    machine_steps. read_state.
  - intros Hthis Hfn. split.
    + intros onresult. rewrite (then_at _ _ _ _ _ _ _ Hthis).
      simpl. unfold guarded_resolution, lift, invoke. simpl. rewrite Hfn.
      machine_steps. read_state.
    + unfold AsyncResult.catch, new_ResultPromise. rewrite alloc_at.
      cbv zeta beta iota. then_step.
      unfold guarded_resolution, lift, invoke. simpl. rewrite Hfn.
      machine_steps. read_state.
Qed.

(** In [map], [mapOrElse], [andThen] and [orElse] the handler is called
    with no [try] of its own, inside the on-settled closure given to
    [then]: what it throws is caught by the [try] of that [then] and
    faults the promise [then] returned, which is dropped.  The future
    the combinator returned is never settled. *)
Lemma map_family_throw_strands (m : Machine) (this : PId) (g : nat)
    (fn other : Handler) (v x : Val) (st : Store) (n : nat) :
  quiescent m ->
  hbody fn v (store (env m)) = (Throw x, st) ->
  (heap m !! this = Some (mkCell g (Fulfilled (VResult (ROk v)))) ->
   (let '(d, m') := AsyncResult.map this fn m in
    state_of d (run n m') = Some (Pending [])
    /\ state_of (d + 1) (run (S n) m') = Some (Rejected x))
   /\ (let '(d, m') := AsyncResult.andThen this fn m in
    state_of d (run n m') = Some (Pending [])
    /\ state_of (d + 1) (run (S n) m') = Some (Rejected x))
   /\ (let '(d, m') := AsyncResult.mapOrElse this other fn m in
    state_of d (run n m') = Some (Pending [])
    /\ state_of (d + 1) (run (S n) m') = Some (Rejected x)))
  /\ (heap m !! this = Some (mkCell g (Fulfilled (VResult (RError v)))) ->
   (let '(d, m') := AsyncResult.orElse this fn m in
    state_of d (run n m') = Some (Pending [])
    /\ state_of (d + 1) (run (S n) m') = Some (Rejected x))
   /\ (let '(d, m') := AsyncResult.mapOrElse this fn other m in
    state_of d (run n m') = Some (Pending [])
    /\ state_of (d + 1) (run (S n) m') = Some (Rejected x))).
Proof.
  destruct m as [h q en]. unfold quiescent. simpl. intros -> Hfn.
  assert (forall closure res,
    h !! this = Some (mkCell g (Fulfilled res)) ->
    (forall m0, env m0 = en ->
       call (closure (length h + 0)%nat) res m0 =
       (Throw x, set_env (mkEnv st (calls en ++ [(hid fn, v)])) m0)) ->
    let '(d, m') := AsyncResult.via_then this closure (mkMachine h [] en) in
    state_of d (run n m') = Some (Pending [])
    /\ state_of (d + 1) (run (S n) m') = Some (Rejected x)) as Hall.
  { intros closure res Hthis Hcall.
    rewrite (via_then_at _ _ _ _ _ _ Hthis). cbv zeta.
    erewrite then_ext; [| reflexivity | exact Hthis]. simpl.
    unfold guarded_resolution. rewrite Hcall by reflexivity.
    machine_steps.
    split.
    - destruct n as [|n]; [read_state|].
      simpl. unfold guarded_resolution. rewrite Hcall by reflexivity.
      machine_steps.
      rewrite run_quiescent by reflexivity. read_state.
    - rewrite run_quiescent by reflexivity.
      replace (length h + 0 + 1)%nat with (length h + 1)%nat by lia. read_state. }
  assert (forall m0, env m0 = en ->
            lift (invoke fn v) m0 =
            (Throw x, set_env (mkEnv st (calls en ++ [(hid fn, v)])) m0)) as Hthrow.
  { intros m0 <-. unfold lift, invoke. rewrite Hfn. reflexivity. }
  split; intros Hthis.
  - split; [|split].
    + apply (Hall (CbMap fn) _ Hthis). intros m0 Hm0. simpl.
      unfold unguarded_resolution. rewrite (Hthrow _ Hm0). reflexivity.
    + apply (Hall (CbAndThen fn) _ Hthis). intros m0 Hm0. simpl.
      unfold unguarded_resolution. rewrite (Hthrow _ Hm0). reflexivity.
    + apply (Hall (CbMapOrElse other fn) _ Hthis). intros m0 Hm0. simpl.
      unfold unguarded_resolution. rewrite (Hthrow _ Hm0). reflexivity.
  - split.
    + apply (Hall (CbOrElse fn) _ Hthis). intros m0 Hm0. simpl.
      unfold unguarded_resolution. rewrite (Hthrow _ Hm0). reflexivity.
    + apply (Hall (CbMapOrElse fn other) _ Hthis). intros m0 Hm0. simpl.
      unfold unguarded_resolution. rewrite (Hthrow _ Hm0). reflexivity.
Qed.

(** C2 (on [Result.Promise.ok(2).andThen(v => { throw "x" })]): the
    future returned by [andThen] is still pending however many jobs are
    run, and the thrown value sits in the fault channel of the promise
    that the inner [then] returned.  In [then] and [catch] themselves
    the thrown value faults the derived future
    ([then_catch_throw_faults]). *)
Theorem C2_andThen_throw_leaves_derived_pending (n : nat) :
  let '(p, m0) := ResultPromise.ok (Some (VNum 2)) init in
  let '(d, m1) := AsyncResult.andThen p thrower m0 in
  state_of d (run n m1) = Some (Pending [])
  /\ state_of (d + 1) (run (S n) m1) = Some (Rejected (VStr "x"))
  /\ calls (env (run (S n) m1)) = [(hid thrower, VNum 2)].
Proof.
  pose proof (map_family_throw_strands
                (mkMachine [mkCell 0 (Fulfilled (VResult (ROk (VNum 2))))] [] empty_env)
                0 0 thrower thrower (VNum 2) (VStr "x") [] n eq_refl eq_refl)
    as [H _].
  destruct (H eq_refl) as (_ & H2 & _). clear H.
  change (ResultPromise.ok (Some (VNum 2)) init)
    with (0, mkMachine [mkCell 0 (Fulfilled (VResult (ROk (VNum 2))))] [] empty_env).
  cbv beta iota.
  destruct (AsyncResult.andThen 0 thrower _) as [d m1] eqn:E.
  destruct H2 as [H1 H2]. split; [exact H1|]. split; [exact H2|].
  vm_compute in E. injection E as <- <-.
  simpl. rewrite run_quiescent by reflexivity. reflexivity.
Qed.

(** *** Pending promises and registration *)








(** * Further properties of the code *)

(** ** The synchronous algebra, continued *)

(** X1. [from] never throws, and [unwrap] undoes it: [from(fn,
    arg).unwrap()] returns what [fn(arg)] returns, throws what it
    throws, and has the same effects. *)
Theorem X1_from_unwrap_round_trip (fn : Handler) (arg : Val) (s : Env) :
  (exists r s', Functions.from fn arg s = (Return r, s'))
  /\ bind (Functions.from fn arg) Result_unwrap s = invoke fn arg s.
Proof.
  unfold Functions.from, try_catch, bind, ret.
  destruct (invoke fn arg s) as [[v|e] s']; simpl; eauto.
Qed.

(** X2. Flattening after [map] is [andThen]: for every Result and every
    function, [flatten(r.map(fn))] and [r.andThen(fn)] give the same
    value, throw alike and have the same effects. *)
Theorem X2_flatten_map_is_andThen (r : Result) (fn : Handler) (s : Env) :
  bind (Result_map r fn) (fun r' => ret (Functions.flatten r')) s
  = Result_andThen r fn s.
Proof.
  destruct r as [v|e]; simpl; [|reflexivity].
  unfold OkResult.map, OkResult.andThen, bind, ret.
  destruct (invoke fn v s) as [[x|x] s']; reflexivity.
Qed.

(** X3. [map] is a functor on the Success side: mapping the identity
    gives the receiver back, and mapping [f] and then [g] gives the same
    Result and the same store as mapping the composed function (a throw
    of [f] or [g] included). *)
Theorem X3_map_functor (r : Result) (f g : Handler) (s : Env) :
  fst (Result_map r identity_handler s) = Return r
  /\ store (snd (Result_map r identity_handler s)) = store s
  /\ fst (bind (Result_map r f) (fun r' => Result_map r' g) s)
     = fst (Result_map r (compose_handlers g f) s)
  /\ store (snd (bind (Result_map r f) (fun r' => Result_map r' g) s))
     = store (snd (Result_map r (compose_handlers g f) s)).
Proof.
  destruct r as [v|e]; simpl; [|repeat split].
  unfold OkResult.map, bind, ret, invoke. simpl.
  split; [reflexivity|]. split; [reflexivity|].
  destruct (hbody f v (store s)) as [[x|x] st']; simpl; [|split; reflexivity].
  unfold OkResult.map, bind, ret, invoke. simpl.
  destruct (hbody g x st') as [[y|y] st'']; simpl; split; reflexivity.
Qed.

Lemma and_unfold (a b : Result) (rest : list Result) :
  Functions.and (a :: b :: rest)
  = if ok_flag a then Functions.and (b :: rest) else a.
Proof.
  unfold Functions.and. simpl. destruct (ok_flag a); simpl; [|reflexivity].
  rewrite Nat.sub_0_r. reflexivity.
Qed.

Lemma or_unfold (a b : Result) (rest : list Result) :
  Functions.or (a :: b :: rest)
  = if ok_flag a then a else Functions.or (b :: rest).
Proof.
  unfold Functions.or. simpl. destruct (ok_flag a); simpl; [reflexivity|].
  rewrite Nat.sub_0_r. reflexivity.
Qed.

(** X4. The free functions [and] / [or] fold the methods [and] / [or]
    over the sequence from the right: [and([a, b, ...])] is
    [a.and(and([b, ...]))], [or([a, b, ...])] is [a.or(or([b, ...]))],
    and a one-element sequence gives its element. *)
Theorem X4_and_or_fold_methods (a b : Result) (rest : list Result) (s : Env) :
  Functions.and [a] = a
  /\ Functions.or [a] = a
  /\ Result_and a (Functions.and (b :: rest)) s = (Return (Functions.and (a :: b :: rest)), s)
  /\ Result_or a (Functions.or (b :: rest)) s = (Return (Functions.or (a :: b :: rest)), s).
Proof.
  split; [destruct a; reflexivity|]. split; [destruct a; reflexivity|].
  rewrite and_unfold, or_unfold. destruct a; split; reflexivity.
Qed.

Lemma and_isOk (l : list Result) :
  Functions.isOk (Functions.and l) = forallb ok_flag l.
Proof.
  induction l as [|a [|b rest] IH]; [reflexivity | |].
  - destruct a; reflexivity.
  - rewrite and_unfold. change (forallb ok_flag (a :: b :: rest))
      with (ok_flag a && forallb ok_flag (b :: rest)).
    destruct a; simpl ok_flag; cbv iota; [exact IH | reflexivity].
Qed.

Lemma or_isOk (l : list Result) :
  Functions.isOk (Functions.or l)
  = match l with [] => true | _ => existsb ok_flag l end.
Proof.
  induction l as [|a [|b rest] IH]; [reflexivity | |].
  - destruct a; reflexivity.
  - rewrite or_unfold. change (existsb ok_flag (a :: b :: rest))
      with (ok_flag a || existsb ok_flag (b :: rest)).
    destruct a; simpl ok_flag; cbv iota; [reflexivity | exact IH].
Qed.

Lemma and_member (l : list Result) : l <> [] -> Functions.and l ∈ l.
Proof.
  induction l as [|a [|b rest] IH]; intros Hne; [congruence | |].
  - destruct a; apply list_elem_of_here.
  - rewrite and_unfold. destruct (ok_flag a).
    + apply list_elem_of_further, IH. congruence.
    + apply list_elem_of_here.
Qed.

Lemma or_member (l : list Result) : l <> [] -> Functions.or l ∈ l.
Proof.
  induction l as [|a [|b rest] IH]; intros Hne; [congruence | |].
  - destruct a; apply list_elem_of_here.
  - rewrite or_unfold. destruct (ok_flag a).
    + apply list_elem_of_here.
    + apply list_elem_of_further, IH. congruence.
Qed.

(** X5. [and(results)] is a Success exactly when every element is one
    (so also on the empty sequence); [or(results)] is a Success exactly
    when the sequence is empty or holds a Success; on a non-empty
    sequence both return one of its elements. *)
Theorem X5_and_or_outcome (l : list Result) :
  Functions.isOk (Functions.and l) = forallb ok_flag l
  /\ Functions.isOk (Functions.or l) = match l with [] => true | _ => existsb ok_flag l end
  /\ (l <> [] -> Functions.and l ∈ l /\ Functions.or l ∈ l).
Proof.
  split; [apply and_isOk|]. split; [apply or_isOk|].
  intros Hne. split; [apply and_member | apply or_member]; exact Hne.
Qed.

Lemma X5_and_or_outcome_witness :
  [ROk (VNum 1); RError (VStr "e")] <> []
  /\ Functions.and [ROk (VNum 1); RError (VStr "e")] ∈ [ROk (VNum 1); RError (VStr "e")]
  /\ Functions.or [ROk (VNum 1); RError (VStr "e")] ∈ [ROk (VNum 1); RError (VStr "e")].
Proof.
  assert ([ROk (VNum 1); RError (VStr "e")] <> []) as Hne by discriminate.
  split; [exact Hne|].
  exact (proj2 (proj2 (X5_and_or_outcome [ROk (VNum 1); RError (VStr "e")])) Hne).
Defined.

Lemma for_of_calls (fn : Handler) (xs : list Val) :
  never_throws fn ->
  forall s, fst (for_of xs fn s) = Return tt
            /\ calls (snd (for_of xs fn s)) = calls s ++ List.map (fun x => (hid fn, x)) xs.
Proof.
  intros Hfn. induction xs as [|x xs IH]; intros s; simpl.
  - split; [reflexivity|]. rewrite app_nil_r. reflexivity.
  - unfold bind, invoke. destruct (Hfn x (store s)) as (y & st' & Hy). rewrite Hy.
    destruct (IH {| store := st'; calls := calls s ++ [(hid fn, x)] |}) as [H1 H2].
    split; [exact H1|]. rewrite H2. simpl. rewrite <- app_assoc. reflexivity.
Qed.

(** X6. [forEach] visits exactly the elements that iterating the Result
    through [Symbol.iterator] produces, in the same order, once each,
    when the function does not throw; on a Failure it visits nothing. *)
Theorem X6_forEach_visits_iterated (r : Result) (fn : Handler) (s : Env) :
  never_throws fn ->
  exists xs,
    drain (S (length xs)) (Result_iterator r) = Some xs
    /\ fst (Result_forEach r fn s) = Return tt
    /\ calls (snd (Result_forEach r fn s)) = calls s ++ List.map (fun x => (hid fn, x)) xs
    /\ (ok_flag r = false -> xs = []).
Proof.
  intros Hfn. exists (remaining (Result_iterator r)).
  split; [apply drain_remaining; lia|].
  destruct r as [v|e]; simpl.
  - unfold OkResult.forEach. destruct (isIterable v) eqn:Hv.
    + destruct (for_of_calls fn (remaining (symbol_iterator v)) Hfn s) as [H1 H2].
      repeat split; try assumption. discriminate.
    + unfold bind, invoke, ret. destruct (Hfn v (store s)) as (y & st' & Hy).
      rewrite Hy. simpl. repeat split. discriminate.
  - repeat split. rewrite app_nil_r. reflexivity.
Qed.

Lemma identity_never_throws : never_throws identity_handler.
Proof. intros v st. exists v, st. reflexivity. Qed.

Lemma X6_forEach_visits_iterated_witness :
  never_throws identity_handler
  /\ exists xs,
       drain (S (length xs)) (Result_iterator (ROk (VArray [VNum 1; VNum 2]))) = Some xs
       /\ calls (snd (Result_forEach (ROk (VArray [VNum 1; VNum 2])) identity_handler empty_env))
          = calls empty_env ++ List.map (fun x => (hid identity_handler, x)) xs.
Proof.
  split; [exact identity_never_throws|].
  destruct (X6_forEach_visits_iterated (ROk (VArray [VNum 1; VNum 2]))
              identity_handler empty_env identity_never_throws)
    as (xs & H1 & _ & H3 & _).
  exists xs. split; assumption.
Defined.

(** X7. A payload that is not an instance of [Object] is never
    unwrapped, even when the language can iterate it (a primitive
    string): the iterator, the generator [values] and [forEach] all
    treat it as the single element. *)
Theorem X7_primitive_payload_is_one_element (v : Val) (fn : Handler) (s : Env) :
  instanceof_Object v = false ->
  drain 2 (Result_iterator (ROk v)) = Some [v]
  /\ yielded (Result_values (ROk v)) = [v]
  /\ Result_forEach (ROk v) fn s = bind (invoke fn v) (fun _ => ret tt) s.
Proof.
  intros Hv.
  assert (isIterable v = false) as Hit by (unfold isIterable; rewrite Hv; reflexivity).
  simpl. unfold OkResult.values, OkResult.forEach. rewrite Hit. repeat split.
Qed.

Lemma X7_primitive_payload_is_one_element_witness :
  instanceof_Object (VStr "abc") = false
  /\ iterator_is_Function (VStr "abc") = true
  /\ remaining (symbol_iterator (VStr "abc")) = [VStr "a"; VStr "b"; VStr "c"]
  /\ drain 2 (Result_iterator (ROk (VStr "abc"))) = Some [VStr "abc"]
  /\ yielded (Result_values (ROk (VStr "abc"))) = [VStr "abc"].
Proof.
  split; [reflexivity|]. split; [reflexivity|]. split; [reflexivity|].
  destruct (X7_primitive_payload_is_one_element (VStr "abc") identity_handler empty_env eq_refl)
    as (H1 & H2 & _).
  split; assumption.
Defined.


(** X9. Decomposition of the defaulting maps: [r.mapOrElse(d, f)] is
    [r.map(f).unwrapOrElse(d)] and [r.mapOr(v, f)] is
    [r.map(f).unwrapOr(v)], with the same value, the same throw and the
    same effects. *)
Theorem X9_mapOr_decomposes (r : Result) (d f : Handler) (dv : Val) (s : Env) :
  bind (Result_map r f) (fun r' => Result_unwrapOrElse r' d) s = Result_mapOrElse r d f s
  /\ bind (Result_map r f) (fun r' => Result_unwrapOr r' dv) s = Result_mapOr r dv f s.
Proof.
  destruct r as [v|e]; simpl.
  - unfold OkResult.map, OkResult.mapOrElse, OkResult.mapOr, bind, ret.
    destruct (invoke f v s) as [[x|x] s']; split; reflexivity.
  - split; reflexivity.
Qed.

(** ** The asynchronous Result, continued *)

Lemma ResultPromise_ok_settled (value : option Val) (m : Machine) :
  ResultPromise.ok value m =
  (length (heap m),
   set_heap (heap m ++ [mkCell 0 (Fulfilled (VResult (Functions.ok value)))]) m).
Proof.
  unfold ResultPromise.ok, new_ResultPromise, alloc, settle.
  rewrite (native_resolve_live _ _ []); simpl; [|apply lookup_fresh|reflexivity].
  unfold enqueue, set_heap. simpl. rewrite app_nil_r.
  f_equal. f_equal.
  rewrite insert_app_r_alt by reflexivity.
  rewrite Nat.sub_diag. reflexivity.
Qed.

(** X10. [Result.Promise.ok(value)] and [orElseAsync] of a Success
    return a new future that is settled at once as the Success
    ([ok()] as the Success of [undefined]); no job is scheduled, no
    function is called and the promises that exist are left as they
    are. *)
Theorem X10_ok_settled_at_once (value : option Val) (fn : Handler) (m : Machine) :
  exists d m',
    ResultPromise.ok value m = (d, m')
    /\ Result_orElseAsync (ROk (default VUndef value)) fn m = (Return (VResultPromise d), m')
    /\ heap m !! d = None
    /\ state_of d m' = Some (Fulfilled (VResult (ROk (default VUndef value))))
    /\ env m' = env m
    /\ queue m' = queue m
    /\ (forall p c, heap m !! p = Some c -> heap m' !! p = Some c).
Proof.
  exists (length (heap m)).
  exists (set_heap (heap m ++ [mkCell 0 (Fulfilled (VResult (Functions.ok value)))]) m).
  split; [apply ResultPromise_ok_settled|].
  split.
  { unfold Result_orElseAsync, OkResultAsync.orElseAsync.
    pose proof (ResultPromise_ok_settled (Some (default VUndef value)) m) as H.
    unfold ResultPromise.ok in H. simpl default in H. rewrite H. reflexivity. }
  repeat split.
  - apply lookup_ge_None. lia.
  - unfold state_of. simpl. rewrite lookup_fresh. reflexivity.
  - intros p c Hp. simpl. apply lookup_app_l_Some. exact Hp.
Qed.

Lemma capability_settles (k : PId -> Settler) (h : list Cell) (x : Val)
    (q : list Job) (e : Env) :
  is_capability k ->
  exists st,
    settle (k (length h + 0)) x (mkMachine (h ++ [fresh]) q e)
    = mkMachine (h ++ [mkCell 0 st]) q e
    /\ match st with Pending _ => False | _ => True end.
Proof.
  intros [-> | [-> | ->]]; simpl.
  - exists (Fulfilled (VResult (ROk x))).
    erewrite native_resolve_ext; [| reflexivity | reflexivity | reflexivity].
    simpl. rewrite app_nil_r. auto.
  - exists (Fulfilled (VResult (RError x))).
    erewrite native_resolve_ext; [| reflexivity | reflexivity | reflexivity].
    simpl. rewrite app_nil_r. auto.
  - exists (Rejected x).
    erewrite native_reject_ext; [| reflexivity | reflexivity].
    simpl. rewrite app_nil_r. auto.
Qed.

(** X11. The three capabilities the constructor hands to its executor
    settle the future at most once: when an executor calls two of them,
    whichever they are, the second call changes nothing. *)
Theorem X11_first_capability_wins (k1 k2 : PId -> Settler) (x y : Val) (m : Machine) :
  is_capability k1 ->
  is_capability k2 ->
  new_ResultPromise (calls_two k1 k2 x y) m = new_ResultPromise (calls_one k1 x) m.
Proof.
  intros H1 H2. destruct m as [h q e].
  unfold new_ResultPromise, calls_two, calls_one. rewrite alloc_at.
  destruct (capability_settles k1 h x q e H1) as (st & Hst & Hfin).
  rewrite Hst.
  assert (settled (length h + 0) (mkMachine (h ++ [mkCell 0 st]) q e)) as Hset.
  { eapply (settled_ext _ _ _ 0); [reflexivity | reflexivity | exact Hfin]. }
  destruct H2 as [-> | [-> | ->]]; simpl;
    first [rewrite (native_resolve_settled _ _ _ _ Hset)
          | rewrite (native_reject_settled _ _ _ _ Hset)]; reflexivity.
Qed.

Lemma X11_first_capability_wins_witness :
  is_capability SettleSuccess
  /\ is_capability catcher_of
  /\ state_of 0 (snd (new_ResultPromise
                        (calls_two SettleSuccess catcher_of (VNum 1) (VNum 3)) init))
     = Some (Fulfilled (VResult (ROk (VNum 1)))).
Proof.
  assert (is_capability SettleSuccess) as H1 by (left; reflexivity).
  assert (is_capability catcher_of) as H2 by (right; right; reflexivity).
  split; [exact H1|]. split; [exact H2|].
  rewrite (X11_first_capability_wins SettleSuccess catcher_of (VNum 1) (VNum 3) init H1 H2).
  reflexivity.
Defined.

(** X12. Adapting an AsyncResult with [from] nests its Result: a source
    settled with the Result [res] (Success or Failure alike) gives the
    Success whose value is [res], and a faulted source gives the Failure
    of the fault. *)
Theorem X12_from_nests_async_result (m : Machine) (p : PId) (g : nat) (res : Result) (r : Val) :
  quiescent m ->
  (heap m !! p = Some (mkCell g (Fulfilled (VResult res))) ->
   let '(d, m') := AsyncResult.from (VResultPromise p) m in
   settles_as d (Fulfilled (VResult (ROk (VResult res)))) m')
  /\ (heap m !! p = Some (mkCell g (Rejected r)) ->
   let '(d, m') := AsyncResult.from (VResultPromise p) m in
   settles_as d (Fulfilled (VResult (RError r))) m').
Proof.
  destruct m as [h q en]. unfold quiescent, settles_as. simpl. intros ->.
  split; intros Hp; unfold AsyncResult.from, new_ResultPromise;
    rewrite alloc_at; machine_steps; (split; [read_state | reflexivity]).
Qed.

Lemma X12_from_nests_async_result_witness :
  let m := snd (ResultPromise.error (VStr "e") init) in
  quiescent m
  /\ heap m !! 0 = Some (mkCell 0 (Fulfilled (VResult (RError (VStr "e")))))
  /\ settles_as 1 (Fulfilled (VResult (ROk (VResult (RError (VStr "e"))))))
       (snd (AsyncResult.from (VResultPromise 0) m)).
Proof.
  split; [reflexivity|]. split; [reflexivity|].
  exact (proj1 (X12_from_nests_async_result
                  (snd (ResultPromise.error (VStr "e") init))
                  0 0 (RError (VStr "e")) VUndef eq_refl) eq_refl).
Defined.

(** X13. [from] on a value that has no [then] method does not throw: it
    returns a future faulted at once with the type error.  [from] on a
    function that throws does throw, and creates no future. *)
Theorem X13_from_edge_cases (v e : Val) (fn : Handler) (arg : Val) (st : Store) (m : Machine) :
  (then_is_Function v = false ->
   let '(d, m') := AsyncResult.from v m in
   heap m !! d = None
   /\ state_of d m' = Some (Rejected TypeError)
   /\ queue m' = queue m /\ env m' = env m)
  /\ (hbody fn arg (store (env m)) = (Throw e, st) ->
      exists m', AsyncResult.from_fn fn arg m = (Throw e, m')
                 /\ heap m' = heap m /\ queue m' = queue m
                 /\ calls (env m') = calls (env m) ++ [(hid fn, arg)]).
Proof.
  split.
  - intros Hv. destruct m as [h q en].
    unfold AsyncResult.from, new_ResultPromise. rewrite alloc_at.
    assert (js_then v (KSettle (SettleSuccess (length h + 0)))
              (KSettle (SettleFailure (length h + 0)))
              (mkMachine (h ++ [fresh]) q en)
            = (Throw TypeError, mkMachine (h ++ [fresh]) q en)) as Hjs.
    { unfold js_then. destruct v as [| | | | |p|p|inh [cs|] it];
        try reflexivity; discriminate Hv. }
    unfold void. rewrite Hjs.
    erewrite native_reject_ext; [| reflexivity | reflexivity].
    simpl. repeat split.
    + apply lookup_ge_None. lia.
    + read_state.
    + apply app_nil_r.
  - intros Hfn. unfold AsyncResult.from_fn, lift, invoke. rewrite Hfn.
    eexists. split; [reflexivity|]. repeat split.
Qed.

Lemma X13_from_edge_cases_witness :
  then_is_Function (VNum 5) = false
  /\ state_of 0 (snd (AsyncResult.from (VNum 5) init)) = Some (Rejected TypeError)
  /\ hbody thrower VUndef (store (env init)) = (Throw (VStr "x"), [])
  /\ exists m', AsyncResult.from_fn thrower VUndef init = (Throw (VStr "x"), m')
                /\ heap m' = heap init.
Proof.
  destruct (X13_from_edge_cases (VNum 5) (VStr "x") thrower VUndef [] init) as [H1 H2].
  split; [reflexivity|].
  split; [exact (proj1 (proj2 (H1 eq_refl)))|].
  split; [reflexivity|].
  destruct (H2 eq_refl) as (m' & Hm & Hh & _).
  exists m'. split; assumption.
Defined.

(** X14. [catch] with a handler, on a source that settles without a
    fault, returns a future that is never settled: the source's Result
    only reaches the promise of the [then] that [catch] goes through,
    which is dropped, and the handler is never called.  Without a
    handler [catch] returns the source itself. *)
Theorem X14_catch_on_settled_source (m : Machine) (this : PId) (g : nat)
    (res : Result) (fn : Handler) (n : nat) :
  AsyncResult.catch this None m = (this, m)
  /\ (quiescent m ->
      heap m !! this = Some (mkCell g (Fulfilled (VResult res))) ->
      let '(d, m') := AsyncResult.catch this (Some fn) m in
      state_of d (run n m') = Some (Pending [])
      /\ state_of (d + 1) (run (S n) m') = Some (Fulfilled (VResult res))
      /\ calls (env (run n m')) = calls (env m)).
Proof.
  split; [reflexivity|].
  destruct m as [h q en]. unfold quiescent. simpl. intros -> Hthis.
  unfold AsyncResult.catch, new_ResultPromise. rewrite alloc_at.
  cbv zeta beta iota. then_step.
  replace (length h + 0 + 1) with (length h + 1) by lia.
  split; [|split].
  - destruct n as [|n]; [read_state|].
    destruct res; machine_steps; rewrite run_quiescent by reflexivity; read_state.
  - destruct res; machine_steps; rewrite run_quiescent by reflexivity; read_state.
  - destruct n as [|n]; [reflexivity|].
    destruct res; machine_steps; rewrite run_quiescent by reflexivity; reflexivity.
Qed.

Lemma X14_catch_on_settled_source_witness :
  let m := snd (ResultPromise.ok (Some (VNum 2)) init) in
  quiescent m
  /\ heap m !! 0 = Some (mkCell 0 (Fulfilled (VResult (ROk (VNum 2)))))
  /\ state_of 1 (run 7 (snd (AsyncResult.catch 0 (Some fail_bad) m))) = Some (Pending [])
  /\ state_of 2 (run 8 (snd (AsyncResult.catch 0 (Some fail_bad) m)))
     = Some (Fulfilled (VResult (ROk (VNum 2)))).
Proof.
  split; [reflexivity|]. split; [reflexivity|].
  destruct (proj2 (X14_catch_on_settled_source
                     (snd (ResultPromise.ok (Some (VNum 2)) init))
                     0 0 (ROk (VNum 2)) fail_bad 7) eq_refl eq_refl)
    as (H1 & H2 & _).
  split; [exact H1 | exact H2].
Defined.

(** X15. Recovery from a fault: when the source is faulted, the handler
    of [catch], like the on-fault handler of [then], is called once with
    the fault; a Result it returns settles the derived future as that
    Result, and any other non-thenable value settles it as a Success of
    that value. *)
Theorem X15_fault_recovery (m : Machine) (this : PId) (g : nat)
    (fn : Handler) (onresult : option Callback) (reason x : Val) (st : Store) :
  quiescent m ->
  heap m !! this = Some (mkCell g (Rejected reason)) ->
  hbody fn reason (store (env m)) = (Return x, st) ->
  let by_catch := AsyncResult.catch this (Some fn) m in
  let by_then := ResultPromise.then_ this onresult (Some (CbUser fn)) m in
  let log := calls (env m) ++ [(hid fn, reason)] in
  (forall res, x = VResult res ->
   settles_calling (fst by_catch) (Fulfilled (VResult res)) log (snd by_catch)
   /\ settles_calling (fst by_then) (Fulfilled (VResult res)) log (snd by_then))
  /\ (isThenable x = false -> Functions.is_ x = false ->
      settles_calling (fst by_catch) (Fulfilled (VResult (ROk x))) log (snd by_catch)
      /\ settles_calling (fst by_then) (Fulfilled (VResult (ROk x))) log (snd by_then)).
Proof.
  destruct m as [h q en]. unfold quiescent, settles_calling, settles_as. simpl.
  intros -> Hthis Hfn.
  unfold AsyncResult.catch, new_ResultPromise. rewrite alloc_at.
  cbv zeta beta iota. rewrite (then_at _ _ _ _ _ _ _ Hthis).
  erewrite then_ext; [| reflexivity | exact Hthis]. simpl.
  unfold guarded_resolution, lift, invoke. simpl. rewrite Hfn. unfold set_env. simpl.
  split.
  - intros res ->. destruct res; machine_steps;
      (split; (split; [split; [read_state | reflexivity] | reflexivity])).
  - intros Ht Hr. unfold handleValueResolution. rewrite Ht, Hr. machine_steps.
    split; (split; [split; [read_state | reflexivity] | reflexivity]).
Qed.

Lemma X15_fault_recovery_witness :
  let m := mkMachine [mkCell 0 (Rejected (VStr "boom"))] [] empty_env in
  quiescent m
  /\ heap m !! 0 = Some (mkCell 0 (Rejected (VStr "boom")))
  /\ hbody fail_bad (VStr "boom") (store (env m)) = (Return (VResult (RError (VStr "bad"))), [])
  /\ settles_calling 1 (Fulfilled (VResult (RError (VStr "bad"))))
       [(hid fail_bad, VStr "boom")]
       (snd (AsyncResult.catch 0 (Some fail_bad) m)).
Proof.
  split; [reflexivity|]. split; [reflexivity|]. split; [reflexivity|].
  exact (proj1 (proj1 (X15_fault_recovery
                  (mkMachine [mkCell 0 (Rejected (VStr "boom"))] [] empty_env)
                  0 0 fail_bad None (VStr "boom") (VResult (RError (VStr "bad"))) []
                  eq_refl eq_refl eq_refl) (RError (VStr "bad")) eq_refl)).
Defined.

(** X16. The asynchronous combinators short-circuit like the
    synchronous ones: on a source settled as a Failure, [map] and
    [andThen] settle the derived future as the same Failure; on a source
    settled as a Success, [orElse] settles it as the same Success; in
    both cases the function is never called. *)
Theorem X16_async_short_circuit (m : Machine) (this : PId) (g : nat)
    (fn : Handler) (v e : Val) :
  quiescent m ->
  (heap m !! this = Some (mkCell g (Fulfilled (VResult (RError e)))) ->
   (let '(d, m') := AsyncResult.map this fn m in
    settles_calling d (Fulfilled (VResult (RError e))) (calls (env m)) m')
   /\ (let '(d, m') := AsyncResult.andThen this fn m in
       settles_calling d (Fulfilled (VResult (RError e))) (calls (env m)) m'))
  /\ (heap m !! this = Some (mkCell g (Fulfilled (VResult (ROk v)))) ->
      let '(d, m') := AsyncResult.orElse this fn m in
      settles_calling d (Fulfilled (VResult (ROk v))) (calls (env m)) m').
Proof.
  destruct m as [h q en]. unfold quiescent, settles_calling, settles_as. simpl.
  intros ->.
  split; intros Hthis;
    unfold AsyncResult.map, AsyncResult.andThen, AsyncResult.orElse;
    rewrite ?(via_then_at _ _ _ _ _ _ Hthis); cbv zeta;
    erewrite then_ext; [| reflexivity | exact Hthis | | reflexivity | exact Hthis];
    machine_steps.
  - split; (split; [split; [read_state | reflexivity] | reflexivity]).
  - split; [split; [read_state | reflexivity] | reflexivity].
Qed.

Lemma X16_async_short_circuit_witness :
  let m := snd (ResultPromise.error (VStr "e") init) in
  quiescent m
  /\ heap m !! 0 = Some (mkCell 0 (Fulfilled (VResult (RError (VStr "e")))))
  /\ settles_calling 1 (Fulfilled (VResult (RError (VStr "e")))) []
       (snd (AsyncResult.map 0 thrower m)).
Proof.
  split; [reflexivity|]. split; [reflexivity|].
  exact (proj1 (proj1 (X16_async_short_circuit
                  (snd (ResultPromise.error (VStr "e") init))
                  0 0 thrower VUndef (VStr "e") eq_refl) eq_refl)).
Defined.

(** What [map], [mapOrElse], [andThen] and [orElse] do when the function
    they apply returns: the closure is called once, and the derived
    future is settled as the resolution of what it returned. *)
Lemma via_then_returns (h : list Cell) (en : Env) (this : PId) (g : nat)
    (res a x : Val) (closure : PId -> Callback) (fn : Handler) (st : Store) :
  h !! this = Some (mkCell g (Fulfilled res)) ->
  (forall m0, call (closure (length h + 0)) res m0
              = unguarded_resolution (lift (invoke fn a)) (length h + 0) m0) ->
  hbody fn a (store en) = (Return x, st) ->
  let '(d, m') := AsyncResult.via_then this closure (mkMachine h [] en) in
  let log := calls en ++ [(hid fn, a)] in
  (forall r, x = VResult r -> settles_calling d (Fulfilled (VResult r)) log m')
  /\ (isThenable x = false -> Functions.is_ x = false ->
      settles_calling d (Fulfilled (VResult (ROk x))) log m').
Proof.
  intros Hthis Hcall Hfn.
  rewrite (via_then_at _ _ _ _ _ _ Hthis). cbv zeta.
  erewrite then_ext; [| reflexivity | exact Hthis]. simpl.
  unfold settles_calling, settles_as. simpl.
  unfold guarded_resolution. rewrite Hcall.
  unfold unguarded_resolution, lift, invoke. simpl. rewrite Hfn. unfold set_env. simpl.
  split.
  - intros r ->. destruct r; machine_steps;
      (split; [split; [read_state | reflexivity] | reflexivity]).
  - intros Ht Hr. unfold handleValueResolution. rewrite Ht, Hr. machine_steps.
    split; [split; [read_state | reflexivity] | reflexivity].
Qed.

(** X17. On the branch they apply to, the asynchronous [map],
    [andThen], [mapOrElse] and [orElse] call their function once with
    the payload and settle the derived future by what it returns: a
    returned Result becomes the outcome itself (so [map] does not wrap
    it, unlike the synchronous [map], which returns a Success holding
    that Result), any other non-thenable value becomes a Success. *)
Theorem X17_async_apply (m : Machine) (this : PId) (g : nat)
    (fn other : Handler) (a x : Val) (st : Store) :
  quiescent m ->
  hbody fn a (store (env m)) = (Return x, st) ->
  let log := calls (env m) ++ [(hid fn, a)] in
  let outcome d m' :=
    (forall r, x = VResult r -> settles_calling d (Fulfilled (VResult r)) log m')
    /\ (isThenable x = false -> Functions.is_ x = false ->
        settles_calling d (Fulfilled (VResult (ROk x))) log m') in
  (heap m !! this = Some (mkCell g (Fulfilled (VResult (ROk a)))) ->
   (let '(d, m') := AsyncResult.map this fn m in outcome d m')
   /\ (let '(d, m') := AsyncResult.andThen this fn m in outcome d m')
   /\ (let '(d, m') := AsyncResult.mapOrElse this other fn m in outcome d m'))
  /\ (heap m !! this = Some (mkCell g (Fulfilled (VResult (RError a)))) ->
      (let '(d, m') := AsyncResult.orElse this fn m in outcome d m')
      /\ (let '(d, m') := AsyncResult.mapOrElse this fn other m in outcome d m'))
  /\ fst (Result_map (ROk a) fn (env m)) = Return (ROk x).
Proof.
  destruct m as [h q en]. unfold quiescent. simpl. intros -> Hfn.
  split; [|split].
  - intros Hthis. split; [|split].
    + apply (via_then_returns h en this g _ a x (CbMap fn) fn st Hthis);
        [reflexivity | exact Hfn].
    + apply (via_then_returns h en this g _ a x (CbAndThen fn) fn st Hthis);
        [reflexivity | exact Hfn].
    + apply (via_then_returns h en this g _ a x (CbMapOrElse other fn) fn st Hthis);
        [reflexivity | exact Hfn].
  - intros Hthis. split.
    + apply (via_then_returns h en this g _ a x (CbOrElse fn) fn st Hthis);
        [reflexivity | exact Hfn].
    + apply (via_then_returns h en this g _ a x (CbMapOrElse fn other) fn st Hthis);
        [reflexivity | exact Hfn].
  - unfold OkResult.map, bind, invoke, ret. rewrite Hfn. reflexivity.
Qed.

Lemma X17_async_apply_witness :
  let m := snd (ResultPromise.ok (Some (VNum 2)) init) in
  quiescent m
  /\ hbody fail_bad (VNum 2) (store (env m)) = (Return (VResult (RError (VStr "bad"))), [])
  /\ heap m !! 0 = Some (mkCell 0 (Fulfilled (VResult (ROk (VNum 2)))))
  /\ settles_calling 1 (Fulfilled (VResult (RError (VStr "bad")))) [(hid fail_bad, VNum 2)]
       (snd (AsyncResult.map 0 fail_bad m))
  /\ fst (Result_map (ROk (VNum 2)) fail_bad (env m))
     = Return (ROk (VResult (RError (VStr "bad")))).
Proof.
  split; [reflexivity|]. split; [reflexivity|]. split; [reflexivity|].
  destruct (X17_async_apply (snd (ResultPromise.ok (Some (VNum 2)) init))
              0 0 fail_bad fail_bad (VNum 2) (VResult (RError (VStr "bad"))) []
              eq_refl eq_refl) as (H1 & _ & H3).
  split; [|exact H3].
  exact (proj1 (proj1 (H1 eq_refl)) (RError (VStr "bad")) eq_refl).
Defined.

(** X18. [then] hands its on-settled handler the Result itself (not the
    payload), once, whichever case it is; a Result the handler returns
    settles the derived future as that Result, any other non-thenable
    value as a Success of that value. *)
Theorem X18_then_hands_result (m : Machine) (this : PId) (g : nat)
    (fn : Handler) (onthrow : option Callback) (res : Result) (x : Val) (st : Store) :
  quiescent m ->
  heap m !! this = Some (mkCell g (Fulfilled (VResult res))) ->
  hbody fn (VResult res) (store (env m)) = (Return x, st) ->
  let '(d, m') := ResultPromise.then_ this (Some (CbUser fn)) onthrow m in
  let log := calls (env m) ++ [(hid fn, VResult res)] in
  (forall r, x = VResult r -> settles_calling d (Fulfilled (VResult r)) log m')
  /\ (isThenable x = false -> Functions.is_ x = false ->
      settles_calling d (Fulfilled (VResult (ROk x))) log m').
Proof.
  destruct m as [h q en]. unfold quiescent, settles_calling, settles_as. simpl.
  intros -> Hthis Hfn.
  rewrite (then_at _ _ _ _ _ _ _ Hthis). simpl.
  unfold guarded_resolution, lift, invoke. simpl. rewrite Hfn. unfold set_env. simpl.
  split.
  - intros r ->. destruct r; machine_steps;
      (split; [split; [read_state | reflexivity] | reflexivity]).
  - intros Ht Hr. unfold handleValueResolution. rewrite Ht, Hr. machine_steps.
    split; [split; [read_state | reflexivity] | reflexivity].
Qed.

Lemma X18_then_hands_result_witness :
  let m := snd (ResultPromise.error (VStr "e") init) in
  quiescent m
  /\ heap m !! 0 = Some (mkCell 0 (Fulfilled (VResult (RError (VStr "e")))))
  /\ hbody identity_handler (VResult (RError (VStr "e"))) (store (env m))
     = (Return (VResult (RError (VStr "e"))), [])
  /\ settles_calling 1 (Fulfilled (VResult (RError (VStr "e"))))
       [(hid identity_handler, VResult (RError (VStr "e")))]
       (snd (ResultPromise.then_ 0 (Some (CbUser identity_handler)) None m)).
Proof.
  split; [reflexivity|]. split; [reflexivity|]. split; [reflexivity|].
  exact (proj1 (X18_then_hands_result
                  (snd (ResultPromise.error (VStr "e") init))
                  0 0 identity_handler None (RError (VStr "e"))
                  (VResult (RError (VStr "e"))) [] eq_refl eq_refl eq_refl)
               (RError (VStr "e")) eq_refl).
Defined.

(** X19. The asynchronous bridge of a Success ([mapAsync],
    [mapOrElseAsync], [andThenAsync]) and of a Failure
    ([mapOrElseAsync], [orElseAsync]) calls its function at once, in the
    caller: when the function returns an AsyncResult, that very future
    is returned and none is created; when the function throws, the
    method throws the same value and no future is created either. *)
Theorem X19_bridge_calls_synchronously (this : Result) (fn other : Handler)
    (p : PId) (e : Val) (st : Store) (m : Machine) :
  let payload := match this with ROk value => value | RError error => error end in
  let m' := set_env (mkEnv st (calls (env m) ++ [(hid fn, payload)])) m in
  (hbody fn payload (store (env m)) = (Return (VResultPromise p), st) ->
   (ok_flag this = true ->
    Result_mapAsync this fn m = (Return (VResultPromise p), m')
    /\ Result_andThenAsync this fn m = (Return (VResultPromise p), m')
    /\ Result_mapOrElseAsync this other fn m = (Return (VResultPromise p), m'))
   /\ (ok_flag this = false ->
       Result_mapOrElseAsync this fn other m = (Return (VResultPromise p), m')
       /\ Result_orElseAsync this fn m = (Return (VResultPromise p), m')))
  /\ (hbody fn payload (store (env m)) = (Throw e, st) ->
      (ok_flag this = true ->
       Result_mapAsync this fn m = (Throw e, m')
       /\ Result_andThenAsync this fn m = (Throw e, m')
       /\ Result_mapOrElseAsync this other fn m = (Throw e, m'))
      /\ (ok_flag this = false ->
          Result_mapOrElseAsync this fn other m = (Throw e, m')
          /\ Result_orElseAsync this fn m = (Throw e, m'))).
Proof.
  destruct this as [v|v]; simpl;
    unfold OkResultAsync.mapOrElseAsync, ErrorResultAsync.mapOrElseAsync,
      ErrorResultAsync.orElseAsync, OkResultAsync.mapAsync, OkResultAsync.andThenAsync,
      lift, invoke;
    (split; intros Hfn; rewrite Hfn; simpl; split; intros Hok;
     first [discriminate Hok | repeat split]).
Qed.

Lemma X19_bridge_calls_synchronously_witness :
  hbody thrower (VNum 2) (store (env init)) = (Throw (VStr "x"), [])
  /\ ok_flag (ROk (VNum 2)) = true
  /\ Result_mapAsync (ROk (VNum 2)) thrower init
     = (Throw (VStr "x"), set_env (mkEnv [] [(hid thrower, VNum 2)]) init).
Proof.
  split; [reflexivity|]. split; [reflexivity|].
  exact (proj1 (proj1 (proj2 (X19_bridge_calls_synchronously
                  (ROk (VNum 2)) thrower thrower 0 (VStr "x") [] init) eq_refl) eq_refl)).
Defined.

(** X20. When the function given to [mapAsync] returns a promise of the
    host, the future [mapAsync] creates is settled as a Success of the
    value the promise is fulfilled with, and faulted (not settled as a
    Failure) by its rejection; with [andThenAsync] the Result the
    promise is fulfilled with becomes the outcome itself. *)
Theorem X20_bridge_adopts_host_promise (m : Machine) (value x r : Val) (res : Result)
    (fn : Handler) (p : PId) (g : nat) (st : Store) :
  quiescent m ->
  hbody fn value (store (env m)) = (Return (VNativePromise p), st) ->
  let outcome c (expected : PState) :=
    exists d m', c = (Return (VResultPromise d), m')
                 /\ heap m !! d = None
                 /\ settles_as d expected m' in
  (heap m !! p = Some (mkCell g (Fulfilled x)) ->
   outcome (Result_mapAsync (ROk value) fn m) (Fulfilled (VResult (ROk x))))
  /\ (heap m !! p = Some (mkCell g (Fulfilled (VResult res))) ->
      outcome (Result_andThenAsync (ROk value) fn m) (Fulfilled (VResult res)))
  /\ (heap m !! p = Some (mkCell g (Rejected r)) ->
      outcome (Result_mapAsync (ROk value) fn m) (Rejected r)
      /\ outcome (Result_andThenAsync (ROk value) fn m) (Rejected r)).
Proof.
  destruct m as [h q en]. unfold quiescent. cbn [queue env heap]. intros -> Hfn.
  unfold Result_mapAsync, Result_andThenAsync,
    OkResultAsync.mapAsync, OkResultAsync.andThenAsync, lift, invoke.
  cbn [env store]. rewrite Hfn. cbn [instanceof_ResultPromise].
  unfold set_env, new_ResultPromise. cbn [heap queue env].
  rewrite !alloc_at. cbv zeta.
  split; [|split].
  - intros Hp. machine_steps. eexists _, _. split; [reflexivity|].
    split; [apply lookup_ge_None; lia|]. unfold settles_as. machine_steps.
    split; [read_state | reflexivity].
  - intros Hp. machine_steps. eexists _, _. split; [reflexivity|].
    split; [apply lookup_ge_None; lia|]. unfold settles_as.
    destruct res; machine_steps; (split; [read_state | reflexivity]).
  - intros Hp. split; machine_steps; (eexists _, _; split; [reflexivity|];
      split; [apply lookup_ge_None; lia|]; unfold settles_as; machine_steps;
      split; [read_state | reflexivity]).
Qed.

Lemma X20_bridge_adopts_host_promise_witness :
  let m := mkMachine [mkCell 0 (Rejected (VStr "nope"))] [] empty_env in
  let fn := mkHandler 4 (fun _ st => (Return (VNativePromise 0), st)) in
  quiescent m
  /\ hbody fn VUndef (store (env m)) = (Return (VNativePromise 0), [])
  /\ heap m !! 0 = Some (mkCell 0 (Rejected (VStr "nope")))
  /\ exists d m', Result_mapAsync (ROk VUndef) fn m = (Return (VResultPromise d), m')
                  /\ heap m !! d = None
                  /\ settles_as d (Rejected (VStr "nope")) m'.
Proof.
  split; [reflexivity|]. split; [reflexivity|]. split; [reflexivity|].
  exact (proj1 (proj2 (proj2 (X20_bridge_adopts_host_promise
                  (mkMachine [mkCell 0 (Rejected (VStr "nope"))] [] empty_env)
                  VUndef VUndef (VStr "nope") (ROk VUndef)
                  (mkHandler 4 (fun _ st => (Return (VNativePromise 0), st)))
                  0 0 [] eq_refl eq_refl)) eq_refl)).
Defined.

(** X21. A future is settled at most once: whatever the heap and the
    job queue hold, once a promise is fulfilled or rejected no closure
    of the combinators and no job changes its outcome, however many
    jobs are run. *)
Theorem X21_settled_once (m : Machine) (d : PId) (g : nat) (st : PState) (n : nat) :
  heap m !! d = Some (mkCell g st) ->
  (forall rs, st <> Pending rs) ->
  state_of d (run n m) = Some st.
Proof.
  intros Hd Hst. apply final_state, final_run. exists g. split; [exact Hd|].
  destruct st as [rs| |]; [exact (Hst rs eq_refl) | exact I | exact I].
Qed.

Lemma X21_settled_once_witness :
  let '(p, m0) := ResultPromise.ok (Some (VNum 2)) init in
  let '(d, m1) := AsyncResult.andThen p fail_bad m0 in
  heap m1 !! p = Some (mkCell 0 (Fulfilled (VResult (ROk (VNum 2)))))
  /\ (forall rs, Fulfilled (VResult (ROk (VNum 2))) <> Pending rs)
  /\ state_of p (run 9 m1) = Some (Fulfilled (VResult (ROk (VNum 2)))).
Proof.
  assert (forall rs, Fulfilled (VResult (ROk (VNum 2))) <> Pending rs) as Hne
    by (intros rs; discriminate).
  split; [reflexivity|]. split; [exact Hne|].
  exact (X21_settled_once
           (snd (AsyncResult.andThen 0 fail_bad (snd (ResultPromise.ok (Some (VNum 2)) init))))
           0 0 (Fulfilled (VResult (ROk (VNum 2)))) 9 eq_refl Hne).
Defined.

(** X22. For functions that return Results, the asynchronous [andThen]
    and [orElse] agree with the synchronous methods of the same name:
    the derived future is settled as the Result that [res.andThen(fn)]
    (resp. [res.orElse(fn)]) returns on the source's Result [res], and
    the environment afterwards is the one the synchronous call leaves. *)
Theorem X22_async_agrees_with_sync (m : Machine) (this : PId) (g : nat)
    (res out : Result) (fn : Handler) :
  quiescent m ->
  heap m !! this = Some (mkCell g (Fulfilled (VResult res))) ->
  (fst (Result_andThen res fn (env m)) = Return (VResult out) ->
   let '(d, m') := AsyncResult.andThen this fn m in
   settles_as d (Fulfilled (VResult out)) m'
   /\ env (run 1 m') = snd (Result_andThen res fn (env m)))
  /\ (fst (Result_orElse res fn (env m)) = Return (VResult out) ->
      let '(d, m') := AsyncResult.orElse this fn m in
      settles_as d (Fulfilled (VResult out)) m'
      /\ env (run 1 m') = snd (Result_orElse res fn (env m))).
Proof.
  destruct m as [h q en]. unfold quiescent, settles_as. cbn [queue env heap].
  intros -> Hthis.
  split; intros Hsync;
    unfold AsyncResult.andThen, AsyncResult.orElse;
    rewrite (via_then_at _ _ _ _ _ _ Hthis); cbv zeta;
    (erewrite then_ext; [| reflexivity | exact Hthis]);
    destruct res as [a|a]; simpl in Hsync |- *.
  - unfold OkResult.andThen, invoke in *.
    unfold guarded_resolution, unguarded_resolution, lift, invoke. simpl.
    destruct (hbody fn a (store en)) as [[x|x] st]; simpl in Hsync; [|discriminate Hsync].
    injection Hsync as ->. unfold set_env. simpl.
    destruct out; machine_steps; (split; [split; [read_state | reflexivity] | reflexivity]).
  - injection Hsync as <-. machine_steps.
    split; [split; [read_state | reflexivity] | reflexivity].
  - injection Hsync as <-. machine_steps.
    split; [split; [read_state | reflexivity] | reflexivity].
  - unfold ErrorResult.orElse, invoke in *.
    unfold guarded_resolution, unguarded_resolution, lift, invoke. simpl.
    destruct (hbody fn a (store en)) as [[x|x] st]; simpl in Hsync; [|discriminate Hsync].
    injection Hsync as ->. unfold set_env. simpl.
    destruct out; machine_steps; (split; [split; [read_state | reflexivity] | reflexivity]).
Qed.

Lemma X22_async_agrees_with_sync_witness :
  let m := snd (ResultPromise.ok (Some (VNum 2)) init) in
  quiescent m
  /\ heap m !! 0 = Some (mkCell 0 (Fulfilled (VResult (ROk (VNum 2)))))
  /\ fst (Result_andThen (ROk (VNum 2)) fail_bad (env m))
     = Return (VResult (RError (VStr "bad")))
  /\ settles_as 1 (Fulfilled (VResult (RError (VStr "bad"))))
       (snd (AsyncResult.andThen 0 fail_bad m)).
Proof.
  split; [reflexivity|]. split; [reflexivity|]. split; [reflexivity|].
  exact (proj1 (proj1 (X22_async_agrees_with_sync
                  (snd (ResultPromise.ok (Some (VNum 2)) init))
                  0 0 (ROk (VNum 2)) (RError (VStr "bad")) fail_bad
                  eq_refl eq_refl) eq_refl)).
Defined.

(** [then] of the host on a promise allocated since. *)
Lemma native_then_fresh (sp : Species) (h L : list Cell) (n k : nat) (c : Cell)
    (onF onR : option Callback) (q : list Job) (e : Env) :
  length h = n ->
  L !! k = Some c ->
  native_then sp (n + k) onF onR (mkMachine (h ++ L) q e) =
  let d := (n + length L)%nat in
  let '(res, rej) := capability sp d in
  (d, match pstate c with
      | Pending rs =>
          mkMachine (h ++ (<[k := mkCell (gen c) (Pending (rs ++ [mkReaction onF onR res rej]))]> L
                           ++ [fresh])) q e
      | Fulfilled v =>
          mkMachine (h ++ (L ++ [fresh])) (q ++ [ReactionJob onF OnFulfilled res rej v]) e
      | Rejected r =>
          mkMachine (h ++ (L ++ [fresh])) (q ++ [ReactionJob onR OnRejected res rej r]) e
      end).
Proof.
  intros Hn Hk. unfold native_then.
  rewrite (alloc_ext _ _ _ _ _ Hn). cbv zeta.
  destruct (capability sp (n + length L)) as [res rej].
  cbn [heap]. rewrite (lookup_ext _ _ _ _ Hn).
  rewrite (lookup_app_l_Some _ _ _ _ Hk).
  destruct c as [g [rs|v|r]]; simpl; try reflexivity.
  unfold set_heap. simpl. rewrite (insert_ext _ _ _ _ _ Hn).
  rewrite insert_app_l by (eapply lookup_lt_Some; exact Hk). reflexivity.
Qed.

(** X23. Chaining: [source.andThen(f).andThen(g)] on a source settled
    as the Success of [a] runs [f] on [a] and then [g] on what [f]
    returned, in that order and once each, and settles the first derived
    future as the Success of [f]'s value and the second as the Success of
    [g]'s value (both values being neither thenable nor Results). *)
Theorem X23_andThen_chain (m : Machine) (this : PId) (g0 : nat)
    (f g : Handler) (a b c : Val) (st1 st2 : Store) :
  quiescent m ->
  heap m !! this = Some (mkCell g0 (Fulfilled (VResult (ROk a)))) ->
  hbody f a (store (env m)) = (Return b, st1) ->
  hbody g b st1 = (Return c, st2) ->
  isThenable b = false -> Functions.is_ b = false ->
  isThenable c = false -> Functions.is_ c = false ->
  let '(d1, m1) := AsyncResult.andThen this f m in
  let '(d2, m2) := AsyncResult.andThen d1 g m1 in
  state_of d1 (run 1 m2) = Some (Fulfilled (VResult (ROk b)))
  /\ state_of d2 (run 1 m2) = Some (Pending [])
  /\ state_of d2 (run 2 m2) = Some (Fulfilled (VResult (ROk c)))
  /\ calls (env (run 2 m2)) = calls (env m) ++ [(hid f, a); (hid g, b)]
  /\ store (env (run 2 m2)) = st2
  /\ quiescent (run 2 m2).
Proof.
  destruct m as [h q en]. unfold quiescent. cbn [queue env heap].
  intros -> Hthis Hf Hg Hb1 Hb2 Hc1 Hc2.
  unfold AsyncResult.andThen.
  rewrite (via_then_at _ _ _ _ _ _ Hthis). cbv zeta.
  erewrite then_ext; [| reflexivity | exact Hthis]. cbn [pstate length app].
  unfold AsyncResult.via_then, new_ResultPromise, ResultPromise.then_, new_ResultPromise.
  erewrite alloc_ext; [| reflexivity]. cbv zeta. cbn [length app].
  erewrite alloc_ext; [| reflexivity]. cbv zeta. cbn [length app].
  erewrite (native_then_fresh _ _ _ _ 0); [| reflexivity | reflexivity].
  simpl.
  assert (forall w d0 m0, isThenable w = false -> Functions.is_ w = false ->
            handleValueResolution w (SettleSuccess d0) (SettleFailure d0) (catcher_of d0) m0
            = (Return VUndef, settle (SettleSuccess d0) w m0)) as Hplain.
  { intros w d0 m0 H1 H2. unfold handleValueResolution. rewrite H1, H2. reflexivity. }
  unfold guarded_resolution, unguarded_resolution, lift, invoke. simpl.
  rewrite Hf. simpl. rewrite (Hplain b) by assumption. unfold set_env. simpl.
  machine_steps.
  split; [read_state|]. split; [read_state|].
  unfold guarded_resolution, unguarded_resolution, lift, invoke. simpl.
  rewrite Hg. simpl. rewrite ?(Hplain c) by assumption. rewrite ?Hc1, ?Hc2.
  unfold set_env. simpl.
  machine_steps.
  split; [read_state|]. split; [rewrite <- app_assoc; reflexivity|].
  split; reflexivity.
Qed.

Lemma X23_andThen_chain_witness :
  let m := snd (ResultPromise.ok (Some (VNum 2)) init) in
  let '(d1, m1) := AsyncResult.andThen 0 identity_handler m in
  let '(d2, m2) := AsyncResult.andThen d1 identity_handler m1 in
  quiescent m
  /\ heap m !! 0 = Some (mkCell 0 (Fulfilled (VResult (ROk (VNum 2)))))
  /\ state_of d2 (run 2 m2) = Some (Fulfilled (VResult (ROk (VNum 2))))
  /\ calls (env (run 2 m2)) = [(hid identity_handler, VNum 2); (hid identity_handler, VNum 2)].
Proof.
  split; [reflexivity|]. split; [reflexivity|].
  destruct (X23_andThen_chain (snd (ResultPromise.ok (Some (VNum 2)) init))
              0 0 identity_handler identity_handler (VNum 2) (VNum 2) (VNum 2) [] []
              eq_refl eq_refl eq_refl eq_refl eq_refl eq_refl eq_refl eq_refl)
    as (_ & _ & H3 & H4 & _).
  split; [exact H3 | exact H4].
Defined.
